(** * Memory-reuse planning of the inference analysis pass

    A shallow embedding of
    [paddle/fluid/inference/analysis/passes/memory_optimize_pass.cc]:
    [CollectLifeCycle], [CollectVarMemorySize], [MakeSimpleReusePlan] and
    [MemoryOptimizePass::RunImpl], together with the properties the
    specification states about them.

    Conventions.
    - C++ [int] and [size_t] values are integers of [Z]; every narrowing
      conversion of the source is written out ([cast_int], [cast_size_t]).
    - [std::unordered_map<std::string, T>] is a [gmap string T] and
      [std::unordered_set<std::string>] a [gset string].  The order in which
      the C++ containers are iterated and the permutation [std::sort]
      leaves among equal keys are not fixed by the language; they are the
      fields of the record [StdLib], constrained only by what the C++
      standard guarantees.
    - [std::vector<MemNode>] is a list accessed and updated by index. *)

From stdpp Require Import gmap strings list fin_maps sorting.
From Stdlib Require Import ZArith Lia.

Local Open Scope Z_scope.

(** ** Machine integers *)

Definition INT_MAX : Z := 2147483647.

(** [static_cast<int>(z)]: reduction to the signed 32-bit range. *)
Definition cast_int (z : Z) : Z := (z + 2 ^ 31) mod 2 ^ 32 - 2 ^ 31.

(** Conversion to [size_t] (unsigned 64-bit). *)
Definition cast_size_t (z : Z) : Z := z mod 2 ^ 64.

(** ** Loops

    [for (size_t k = lo; k < hi; k++) body(k)] over a threaded state. *)
Definition for_range {St : Type} (lo hi : nat) (body : nat → St → St) (s : St) : St :=
  foldl (λ acc k, body k acc) s (seq lo (hi - lo)).

(** ** The working structure [MemNode] *)

Module MemNode.

Record t : Type := mk {
  name : string;
  size : Z;                 (* size_t *)
  cluster : Z;              (* int *)
  lifetime : Z * Z;         (* std::pair<int, int> *)
  adj : gset string
}.

Definition insert_adj (s : string) (n : t) : t :=
  mk (name n) (size n) (cluster n) (lifetime n) ({[ s ]} ∪ adj n).

Definition set_adj (a : gset string) (n : t) : t :=
  mk (name n) (size n) (cluster n) (lifetime n) a.

Definition set_cluster (c : Z) (n : t) : t :=
  mk (name n) (size n) c (lifetime n) (adj n).

End MemNode.

(** The lambda [overlap] of [MakeSimpleReusePlan]. *)
Definition overlap (a b : Z * Z) : bool :=
  (b.2 >=? a.1) && (a.2 >=? b.1).

(** The lambda [sort_func] of [MakeSimpleReusePlan]: sizes only. *)
Definition sort_func (a b : MemNode.t) : bool :=
  MemNode.size a >? MemNode.size b.

(** What the C++ standard library leaves open.  [iterate m] is the order
    in which a range-for visits the entries of the lifecycle map;
    [std_sort] is [std::sort(_, _, sort_func)], of which the standard
    promises a rearrangement of the input in which no later element
    compares before an earlier one. *)
Record StdLib : Type := {
  iterate : gmap string (Z * Z) → list (string * (Z * Z));
  iterate_perm : ∀ m, iterate m ≡ₚ map_to_list m;
  std_sort : list MemNode.t → list MemNode.t;
  std_sort_perm : ∀ l, std_sort l ≡ₚ l;
  std_sort_sorted :
    ∀ l, StronglySorted (λ a b, sort_func b a = false) (std_sort l)
}.

(** ** [MakeSimpleReusePlan] *)

(** First loop: one [MemNode] per lifecycle entry that has a size
    ([candidate] is the loop body, [None] its [continue]). *)
Definition candidate (space_table : gmap string Z) (data : string * (Z * Z))
    : option MemNode.t :=
  match space_table !! data.1 with
  | None => None
  | Some sz => Some (MemNode.mk data.1 sz (-1) data.2 ∅)
  end.

Definition make_mem_nodes (E : StdLib)
    (lifecycles : gmap string (Z * Z)) (space_table : gmap string Z)
    : list MemNode.t :=
  omap (candidate space_table) (iterate E lifecycles).

(** Body of the adjacency double loop for one pair [i < j]. *)
Definition link (i j : nat) (mem_nodes : list MemNode.t) : list MemNode.t :=
  match mem_nodes !! i, mem_nodes !! j with
  | Some ni, Some nj =>
      if overlap (MemNode.lifetime ni) (MemNode.lifetime nj) then
        <[j := MemNode.insert_adj (MemNode.name ni) nj]>
          (<[i := MemNode.insert_adj (MemNode.name nj) ni]> mem_nodes)
      else mem_nodes
  | _, _ => mem_nodes
  end.

Definition build_adjacency (mem_nodes : list MemNode.t) : list MemNode.t :=
  let n := length mem_nodes in
  for_range 0 n (λ i, for_range (S i) n (λ j, link i j)) mem_nodes.

(** State of the greedy pass: the vector and the two output maps. *)
Record plan : Type := mkPlan {
  mem_nodes : list MemNode.t;
  node2cluster : gmap string string;
  cluster_size : gmap string Z
}.

(** Body of the inner greedy loop: try to take node [j] into the cluster
    rooted at the node called [root]; the second component of the state is
    the local [cluster_adj]. *)
Definition admit_node (root : string) (cluster_index : Z) (j : nat)
    (st : plan * gset string) : plan * gset string :=
  match mem_nodes st.1 !! j with
  | None => st
  | Some nj =>
      if (MemNode.cluster nj <? 0) && bool_decide (MemNode.name nj ∉ st.2) then
        (mkPlan (<[j := MemNode.set_cluster cluster_index nj]> (mem_nodes st.1))
                (<[MemNode.name nj := root]> (node2cluster st.1))
                (cluster_size st.1),
         st.2 ∪ MemNode.adj nj)
      else st
  end.

(** Body of the outer greedy loop. *)
Definition open_cluster (i : nat) (p : plan) : plan :=
  match mem_nodes p !! i with
  | None => p
  | Some ni =>
      if MemNode.cluster ni >=? 0 then p
      else
        let cluster_index := cast_int (Z.of_nat (size (cluster_size p))) in
        let p1 :=
          mkPlan (<[i := MemNode.set_cluster cluster_index ni]> (mem_nodes p))
                 (<[MemNode.name ni := MemNode.name ni]> (node2cluster p))
                 (<[MemNode.name ni := cast_int (MemNode.size ni)]> (cluster_size p)) in
        (for_range (S i) (length (mem_nodes p))
           (admit_node (MemNode.name ni) cluster_index) (p1, MemNode.adj ni)).1
  end.

Definition greedy (p : plan) : plan :=
  for_range 0 (length (mem_nodes p)) open_cluster p.

(** The whole function; the two output maps are passed in as the caller
    holds them and returned as the function leaves them. *)
Definition MakeSimpleReusePlan (E : StdLib)
    (lifecycles : gmap string (Z * Z)) (space_table : gmap string Z)
    (node2cluster0 : gmap string string) (cluster_size0 : gmap string Z)
    : gmap string string * gmap string Z :=
  let nodes := std_sort E (build_adjacency (make_mem_nodes E lifecycles space_table)) in
  let p := greedy (mkPlan nodes node2cluster0 cluster_size0) in
  (node2cluster p, cluster_size p).

(** ** The graph, as the pass reads it

    [framework::ir::Node] is declared outside the sources at hand; the pass
    reads of a node its name ([Name()], which for an operation node is the
    operator type and for a variable node the variable name, so that
    [Op()->Type()] and [Var()->Name()] are read as [Name]), its kind
    ([IsOp()], [IsVar()]), its variable descriptor ([Var()], possibly null)
    and its neighbours ([inputs], [outputs]).  The pointer structure is
    unfolded: a node carries its neighbours, to the depth the pass
    dereferences them. *)

Inductive VarType_Type : Type :=
  | VarType_Type_LOD_TENSOR
  | VarType_Type_OTHER (tag : Z).

#[local] Instance VarType_Type_eq_dec : EqDecision VarType_Type.
Proof. solve_decision. Defined.

Record VarDesc : Type := mkVarDesc {
  Persistable : bool;
  GetType : VarType_Type;
  GetShape : list Z;            (* std::vector<int64_t> *)
  GetDataType : Z               (* tag of the element type *)
}.

#[warnings="-register-all"]
Inductive Node : Type := mkNode {
  Name : string;
  IsOp : bool;
  Var : option VarDesc;
  inputs : list Node;
  outputs : list Node
}.

Definition IsVar (n : Node) : bool := negb (IsOp n).

Record Graph : Type := mkGraph {
  Nodes : list Node             (* in the iteration order of the node set *)
}.

(** What the framework supplies: the byte width of an element type
    ([SizeOfType], a [size_t]) and the traversal
    [TopologyVariantSort(graph, sort_kind)]. *)
Record Framework : Type := {
  SizeOfType : Z → Z;
  TopologyVariantSort : Graph → Z → list Node
}.

(** ** Exceptions

    [PADDLE_ENFORCE_*] throws; a computation either returns or throws. *)

Inductive error : Type :=
  | NegativeShape      (* "The shape of node shouldn't be negative." *)
  | NotAnOperation.    (* "Expected a node to be an operation, ..." *)

Inductive result (A : Type) : Type :=
  | Ok (a : A)
  | Throw (e : error).
Arguments Ok {A} a.
Arguments Throw {A} e.

Definition bind {A B : Type} (r : result A) (f : A → result B) : result B :=
  match r with
  | Ok a => f a
  | Throw e => Throw e
  end.

Notation "'let*' x ':=' r 'in' k" := (bind r (λ x, k))
  (at level 10, x name, r at level 100, k at level 200, only parsing).

(** A range-for whose body may throw. *)
Fixpoint for_each {A St : Type} (body : A → St → result St) (l : list A) (s : St)
    : result St :=
  match l with
  | [] => Ok s
  | x :: l' => let* s' := body x s in for_each body l' s'
  end.

(** ** [CollectLifeCycle] *)

(** [lifecycles->emplace(var, v)]: no effect on a key already present. *)
Definition emplace (var : string) (v : Z * Z) (lifecycles : gmap string (Z * Z))
    : gmap string (Z * Z) :=
  match lifecycles !! var with
  | Some _ => lifecycles
  | None => <[var := v]> lifecycles
  end.

(** The flag [is_break]: some node of [node->inputs] is named "fetch". *)
Definition is_break (node : Node) : bool :=
  existsb (λ op_op, bool_decide (Name op_op = "fetch")) (inputs node).

(** Body of the loop over [req] of a normal operator at step
    [max_lifecycle].  The byte count added to [persis_byte] is only logged
    and is left out. *)
Definition visit_var (max_lifecycle : Z) (node : Node)
    (lifecycles : gmap string (Z * Z)) : result (gmap string (Z * Z)) :=
  match Var node with
  | None => Ok lifecycles
  | Some vd =>
      if Persistable vd then
        if is_break node then Ok lifecycles
        else if forallb (λ i, i >=? 0) (GetShape vd) then Ok lifecycles
        else Throw NegativeShape
      else
        let var := Name node in
        Ok (match lifecycles !! var with
            | None => <[var := (max_lifecycle, max_lifecycle)]> lifecycles
            | Some lt => <[var := (lt.1, Z.max max_lifecycle lt.2)]> lifecycles
            end)
  end.

(** Body of the loop over the sorted nodes; the state is
    [(max_lifecycle, lifecycles)].  [max_lifecycle] is an [int] whose
    overflow is undefined behaviour; the counter is kept in [Z] and the
    properties that need it within the range of [int] bound the length of
    the traversal. *)
Definition visit_op (op_node : Node) (st : Z * gmap string (Z * Z))
    : result (Z * gmap string (Z * Z)) :=
  if negb (IsOp op_node) then Ok st
  else
    let req := inputs op_node ++ outputs op_node in
    let* lifecycles :=
      (if bool_decide (Name op_node = "feed") then
         Ok (foldl (λ lc node, emplace (Name node) (0, INT_MAX) lc)
                   st.2 (outputs op_node))
       else for_each (visit_var st.1) req st.2) in
    Ok (st.1 + 1, lifecycles).

Definition CollectLifeCycle (F : Framework) (graph : Graph)
    (lifecycles : gmap string (Z * Z)) (sort_kind : Z)
    : result (gmap string (Z * Z)) :=
  let* st :=
    for_each visit_op (TopologyVariantSort F graph sort_kind) (0, lifecycles) in
  Ok st.2.

(** ** [CollectVarMemorySize] *)

Definition fake_batch_size : Z := 1.

Definition invalid_op : list string :=
  ["while"; "conditional_block"; "tensorrt_engine"; "conditional_block_infer";
   "merge_lod_tensor_infer"; "merge_lod_tensor"; "equal"; "sequence_pool";
   "recurrent"; "lod_reset"; "fetch"; "share_data"].

(** One loop of the lambda [valid_var]: [Ok false] is its [return false],
    [Ok true] falls out of the loop. *)
Fixpoint scan_ops (l : list Node) : result bool :=
  match l with
  | [] => Ok true
  | tmp :: l' =>
      if negb (IsOp tmp) then Throw NotAnOperation
      else if bool_decide (Name tmp ∈ invalid_op) then Ok false
      else scan_ops l'
  end.

Definition valid_var (node : Node) : result bool :=
  let* ok := scan_ops (inputs node) in
  if ok then scan_ops (outputs node) else Ok false.

(** The guard shared by both loops over [graph->Nodes()]. *)
Definition dense_var (node : Node) : option VarDesc :=
  if IsVar node then
    match Var node with
    | Some vd =>
        if bool_decide (GetType vd = VarType_Type_LOD_TENSOR) then Some vd else None
    | None => None
    end
  else None.

Definition collect_black (node : Node) (black_list : gset string)
    : result (gset string) :=
  match dense_var node with
  | Some _ =>
      let* ok := valid_var node in
      Ok (if ok then black_list else {[Name node]} ∪ black_list)
  | None => Ok black_list
  end.

(** Conversion to [int64_t]. *)
Definition cast_int64 (z : Z) : Z := (z + 2 ^ 63) mod 2 ^ 64 - 2 ^ 63.

(** [std::accumulate(shape.begin(), shape.end(), 1, std::multiplies<>())]:
    the accumulator has the type of the initial value, [int]; each product
    is formed in [int64_t] and stored back into it. *)
Definition accumulate_int (shape : list Z) : Z :=
  foldl (λ acc v, cast_int (cast_int64 (acc * v))) 1 shape.

(** The loop over [shape]: [if (v < 0) v = fake_batch_size]. *)
Definition placeholder (v : Z) : Z := if v <? 0 then fake_batch_size else v.

(** The value stored for a variable: [size * SizeOfType(...)], the [int]
    converted to [size_t] for the multiplication. *)
Definition var_size (F : Framework) (vd : VarDesc) : Z :=
  let shape := placeholder <$> GetShape vd in
  let size := accumulate_int shape in
  cast_size_t (cast_size_t size * SizeOfType F (GetDataType vd)).

Definition collect_size (F : Framework) (black_list : gset string) (node : Node)
    (space_table : gmap string Z) : gmap string Z :=
  match dense_var node with
  | Some vd =>
      if bool_decide (Name node ∈ black_list) then space_table
      else if Persistable vd then space_table
      else <[Name node := var_size F vd]> space_table
  | None => space_table
  end.

Definition CollectVarMemorySize (F : Framework) (graph : Graph)
    (space_table : gmap string Z) : result (gmap string Z) :=
  let* black_list := for_each collect_black (Nodes graph) ∅ in
  Ok (foldl (λ tbl node, collect_size F black_list node tbl)
            space_table (Nodes graph)).

(** ** The results registry and [RunImpl] *)

(** Modelled from the spec: [PassResultInfoForRuntime]
    ([pass_result_info.h]) is not among the sources.  The specification
    describes a process-wide store keyed by the pair of session id and pass
    name in which a second write under one key replaces the first.  An
    entry holds one published map. *)
Inductive PassInfo : Type :=
  | Node2ClusterInfo (m : gmap string string)
  | ClusterSizeInfo (m : gmap string Z).

(** [PassResultInfoForRuntime::Set] ([Set] is a keyword here). *)
Definition Set_ (predictor_id : Z) (pass_name : string) (infos : PassInfo)
    (registry : gmap (Z * string) PassInfo) : gmap (Z * string) PassInfo :=
  <[(predictor_id, pass_name) := infos]> registry.

Record Argument : Type := mkArgument {
  enable_memory_optim : bool;
  main_graph_ptr : Graph;
  root_predictor_id : Z
}.

Definition repr : string := "memory_optimize_pass".

(** [MemoryOptimizePass::RunImpl]; the state threaded through is the
    registry behind [PassResultInfoForRuntime::Instance()]. *)
Definition RunImpl (E : StdLib) (F : Framework) (argument : Argument)
    (registry : gmap (Z * string) PassInfo)
    : result (gmap (Z * string) PassInfo) :=
  if negb (enable_memory_optim argument) then Ok registry
  else
    let graph := main_graph_ptr argument in
    let sort_kind := 0 in
    let* lifecycles := CollectLifeCycle F graph ∅ sort_kind in
    let* space_table := CollectVarMemorySize F graph ∅ in
    let '(node2cluster, cluster_size) :=
      MakeSimpleReusePlan E lifecycles space_table ∅ ∅ in
    Ok (Set_ (root_predictor_id argument) "memory_optimize_pass"
             (Node2ClusterInfo node2cluster) registry).

(** * Two standard libraries within the contract

    They differ in the order of the map iteration, hence in the order left
    among candidates of equal size. *)

Definition size_ge (a b : MemNode.t) : Prop := sort_func b a = false.

#[local] Instance size_ge_dec : RelDecision size_ge.
Proof. intros a b. unfold size_ge. apply _. Defined.

#[local] Instance size_ge_total : Total size_ge.
Proof. intros a b. unfold size_ge, sort_func. lia. Qed.

#[local] Instance size_ge_trans : Transitive size_ge.
Proof. intros a b c. unfold size_ge, sort_func. lia. Qed.

Definition stable_sort (l : list MemNode.t) : list MemNode.t :=
  merge_sort size_ge l.

Lemma stable_sort_perm l : stable_sort l ≡ₚ l.
Proof. apply merge_sort_Permutation. Qed.

Lemma stable_sort_sorted l :
  StronglySorted (λ a b, sort_func b a = false) (stable_sort l).
Proof. apply (StronglySorted_merge_sort size_ge). Qed.

Lemma reverse_iterate_perm (m : gmap string (Z * Z)) :
  reverse (map_to_list m) ≡ₚ map_to_list m.
Proof. apply reverse_Permutation. Qed.

Definition libA : StdLib :=
  Build_StdLib map_to_list (λ m, reflexivity _)
               stable_sort stable_sort_perm stable_sort_sorted.

Definition libB : StdLib :=
  Build_StdLib (λ m, reverse (map_to_list m)) reverse_iterate_perm
               stable_sort stable_sort_perm stable_sort_sorted.

(** * Concrete inputs *)

(** Every element type is four bytes wide (as [float32]); the traversal
    visits the operator nodes in the order of the node list, which for the
    graphs below is a topological order. *)
Definition fwA : Framework :=
  Build_Framework (λ _, 4) (λ g _, filter (λ n, IsOp n = true) (Nodes g)).

(** An operator as a variable node refers to it. *)
Definition op_ref (type : string) : Node := mkNode type true None [] [].

Definition dense (persistable : bool) (shape : list Z) : option VarDesc :=
  Some (mkVarDesc persistable VarType_Type_LOD_TENSOR shape 5).

(** feed -> X; fc(X, W) -> Y; relu(Y) -> Z; tanh(Z) -> V; scale(V) -> U;
    fetch(U) -> out.  [W] is a parameter, [out] the fetch holder. *)
Definition var_X : Node := mkNode "X" false (dense false [-1; 3]) [op_ref "feed"] [op_ref "fc"].
Definition var_W : Node := mkNode "W" false (dense true [3; 8]) [] [op_ref "fc"].
Definition var_Y : Node := mkNode "Y" false (dense false [-1; 8]) [op_ref "fc"] [op_ref "relu"].
Definition var_Z : Node := mkNode "Z" false (dense false [-1; 4]) [op_ref "relu"] [op_ref "tanh"].
Definition var_V : Node := mkNode "V" false (dense false [-1; 2]) [op_ref "tanh"] [op_ref "scale"].
Definition var_U : Node := mkNode "U" false (dense false [-1; 2]) [op_ref "scale"] [op_ref "fetch"].
Definition var_out : Node :=
  mkNode "out" false (Some (mkVarDesc true (VarType_Type_OTHER 10) [] 5)) [op_ref "fetch"] [].

Definition op_feed : Node := mkNode "feed" true None [] [var_X].
Definition op_fc : Node := mkNode "fc" true None [var_X; var_W] [var_Y].
Definition op_relu : Node := mkNode "relu" true None [var_Y] [var_Z].
Definition op_tanh : Node := mkNode "tanh" true None [var_Z] [var_V].
Definition op_scale : Node := mkNode "scale" true None [var_V] [var_U].
Definition op_fetch : Node := mkNode "fetch" true None [var_U] [var_out].

Definition graph1 : Graph :=
  mkGraph [op_feed; var_X; var_W; op_fc; var_Y; op_relu; var_Z; op_tanh;
           var_V; op_scale; var_U; op_fetch; var_out].

Definition argument1 : Argument := mkArgument true graph1 7.

(** The worked scenario of the specification. *)
Definition lc9 : gmap string (Z * Z) :=
  <["A" := (0, 2)]> (<["B" := (3, 5)]> (<["C" := (1, 4)]> ∅)).
Definition st9 : gmap string Z :=
  <["A" := 100]> (<["B" := 50]> (<["C" := 80]> ∅)).

(** Three candidates of one size. *)
Definition lc4 : gmap string (Z * Z) :=
  <["X" := (0, 1)]> (<["Y" := (2, 3)]> (<["Z" := (1, 2)]> ∅)).
Definition st4 : gmap string Z :=
  <["X" := 10]> (<["Y" := 10]> (<["Z" := 10]> ∅)).

(** A two-gigabyte buffer and a small one. *)
Definition lc2 : gmap string (Z * Z) :=
  <["A" := (0, 0)]> (<["B" := (1, 1)]> ∅).
Definition st2 : gmap string Z :=
  <["A" := 2147483648]> (<["B" := 5]> ∅).

(** What the collectors return on [graph1]. *)
Definition lifecycles1 : gmap string (Z * Z) :=
  <["X" := (0, INT_MAX)]> (<["Y" := (1, 2)]> (<["Z" := (2, 3)]>
    (<["V" := (3, 4)]> (<["U" := (4, 5)]> ∅)))).

Definition space_table1 : gmap string Z :=
  <["X" := 12]> (<["Y" := 32]> (<["Z" := 16]> (<["V" := 8]> ∅))).

(** A graph of one variable of [2^31] elements. *)
Definition var_T : Node :=
  mkNode "T" false (dense false [-1; 2048; 1024; 1024])
         [op_ref "matmul"] [op_ref "relu"].

Definition graph_big : Graph := mkGraph [var_T].

(** fetch(P) -> out, with [P] a parameter of dynamic first dimension. *)
Definition var_P : Node := mkNode "P" false (dense true [-1; 4]) [] [op_ref "fetch"].
Definition op_fetch_P : Node := mkNode "fetch" true None [var_P] [var_out].
Definition graph_fetch : Graph := mkGraph [var_P; op_fetch_P; var_out].

(** * Vocabulary of the proofs *)

(** [adj_inv l done cur]: [cur] is [l] with, in node [k], the names of the
    overlapping nodes [b] of the pairs [(k, b)] already visited ([done])
    inserted into [adj]. *)
Definition adj_inv (l : list MemNode.t) (done : nat → nat → Prop)
    (cur : list MemNode.t) : Prop :=
  length cur = length l ∧
  ∀ k nk, l !! k = Some nk →
    ∃ a, cur !! k = Some (MemNode.set_adj a nk) ∧
         ∀ x, x ∈ a ↔
              x ∈ MemNode.adj nk ∨
              ∃ b nb, l !! b = Some nb ∧ MemNode.name nb = x ∧
                      overlap (MemNode.lifetime nk) (MemNode.lifetime nb) = true ∧
                      done k b.

(** The adjacency set the loops compute for a node: the names of the other
    nodes whose lifetime overlaps its own. *)
Definition adj_of (l : list MemNode.t) (n : MemNode.t) : gset string :=
  list_to_set
    (MemNode.name <$>
       filter (λ m, MemNode.name m ≠ MemNode.name n ∧
                    overlap (MemNode.lifetime n) (MemNode.lifetime m) = true) l).

(** The vector the greedy pass starts from. *)
Definition sorted_nodes (E : StdLib) (lc : gmap string (Z * Z))
    (st : gmap string Z) : list MemNode.t :=
  std_sort E (build_adjacency (make_mem_nodes E lc st)).

(** What the greedy pass relies on: names are unique, no node is
    assigned, and [adj] is the overlap relation. *)
Definition well_formed (l : list MemNode.t) : Prop :=
  NoDup (MemNode.name <$> l) ∧
  (∀ n, n ∈ l → MemNode.cluster n = -1) ∧
  (∀ n m, n ∈ l → m ∈ l →
     MemNode.name m ∈ MemNode.adj n ↔
     MemNode.name m ≠ MemNode.name n ∧
     overlap (MemNode.lifetime n) (MemNode.lifetime m) = true).

(** The invariant of the outer loop before iteration [i], over the vector
    [l] the pass started from. *)
Record greedy_inv (l : list MemNode.t) (i : nat) (p : plan) : Prop := {
  gi_len : length (mem_nodes p) = length l;
  gi_nodes : ∀ k nk, l !! k = Some nk →
    ∃ c, mem_nodes p !! k = Some (MemNode.set_cluster c nk) ∧
         (0 ≤ c → is_Some (node2cluster p !! MemNode.name nk));
  gi_done : ∀ k nk, (k < i)%nat → l !! k = Some nk →
    is_Some (node2cluster p !! MemNode.name nk);
  gi_rep : ∀ u r, node2cluster p !! u = Some r →
    ∃ kr ku nr nu,
      l !! kr = Some nr ∧ l !! ku = Some nu ∧
      MemNode.name nr = r ∧ MemNode.name nu = u ∧
      (kr ≤ ku)%nat ∧ (kr < i)%nat ∧
      node2cluster p !! r = Some r ∧
      cluster_size p !! r = Some (cast_int (MemNode.size nr));
  gi_sep : ∀ nu nv r, nu ∈ l → nv ∈ l →
    node2cluster p !! MemNode.name nu = Some r →
    node2cluster p !! MemNode.name nv = Some r →
    MemNode.name nu ≠ MemNode.name nv →
    MemNode.name nv ∉ MemNode.adj nu;
  gi_cs : ∀ r s, cluster_size p !! r = Some s → node2cluster p !! r = Some r
}.

(** The invariant of the inner loop of the cluster rooted at node [ni]
    of index [i]; the second component of the state is [cluster_adj]. *)
Definition inner_inv (l : list MemNode.t) (i : nat) (ni : MemNode.t)
    (st : plan * gset string) : Prop :=
  greedy_inv l (S i) st.1 ∧
  node2cluster st.1 !! MemNode.name ni = Some (MemNode.name ni) ∧
  cluster_size st.1 !! MemNode.name ni = Some (cast_int (MemNode.size ni)) ∧
  ∀ nu, nu ∈ l → node2cluster st.1 !! MemNode.name nu = Some (MemNode.name ni) →
        MemNode.adj nu ⊆ st.2.

(** The final state of the greedy pass started on empty output maps. *)
Definition plan_of (E : StdLib) (lc : gmap string (Z * Z)) (st : gmap string Z)
    : plan :=
  greedy (mkPlan (sorted_nodes E lc st) ∅ ∅).

(** The sizes of the candidates, and their being pairwise distinct. *)
Definition candidate_sizes (lc : gmap string (Z * Z)) (st : gmap string Z)
    : list Z :=
  omap (λ data : string * (Z * Z), st !! data.1) (map_to_list lc).

Definition distinct_sizes (lc : gmap string (Z * Z)) (st : gmap string Z) : Prop :=
  NoDup (candidate_sizes lc st).

(** The variable nodes of one name carry one descriptor (the data model's
    "unique name" of a variable). *)
Definition names_identify_variables (g : Graph) : Prop :=
  ∀ n1 n2, n1 ∈ Nodes g → n2 ∈ Nodes g →
           IsVar n1 = true → IsVar n2 = true →
           Name n1 = Name n2 → Var n1 = Var n2.

(** A checker for [names_identify_variables]. *)
#[local] Instance VarDesc_eq_dec : EqDecision VarDesc.
Proof. solve_decision. Defined.

Definition names_identify_variablesb (g : Graph) : bool :=
  forallb (λ n1,
    forallb (λ n2,
      implb (IsVar n1 && IsVar n2 && bool_decide (Name n1 = Name n2))
            (bool_decide (Var n1 = Var n2)))
      (Nodes g))
    (Nodes g).

(** The fetch exception of the code: an operator named "fetch" is among
    the producers ([inputs]) of the variable node. *)
Definition produced_by_fetch (node : Node) : Prop :=
  ∃ p, p ∈ inputs node ∧ Name p = "fetch".

(** The variable nodes on which the shape check throws. *)
Definition rejects_shape (node : Node) : Prop :=
  ∃ vd, Var node = Some vd ∧ Persistable vd = true ∧
        ¬ produced_by_fetch node ∧ ∃ d, d ∈ GetShape vd ∧ d < 0.

(** The operators at which the traversal throws. *)
Definition op_rejects (op : Node) : Prop :=
  IsOp op = true ∧ Name op ≠ "feed" ∧
  ∃ node, node ∈ inputs op ++ outputs op ∧ rejects_shape node.

(** Intervals of non-negative [int] steps. *)
Definition int_intervals (lc : gmap string (Z * Z)) : Prop :=
  ∀ v a b, lc !! v = Some (a, b) → 0 ≤ a ≤ INT_MAX ∧ 0 ≤ b.

(** The product of the dimensions, in the integers. *)
Definition product (shape : list Z) : Z := foldl Z.mul 1 shape.

(** The specification's condition: the variable is consumed, and only by
    operators named "fetch". *)
Definition spec_solely_consumed_by_fetch (node : Node) : Prop :=
  outputs node ≠ [] ∧ ∀ c, c ∈ outputs node → Name c = "fetch".

(** ** Vocabulary of the further properties *)

(** The greedy pass writes the maps only at names of the vector: under
    any other key [k] they stay as they came in. *)
Definition frame_inv (names : list string) (k : string)
    (n2c0 : gmap string string) (cs0 : gmap string Z) (p : plan) : Prop :=
  MemNode.name <$> mem_nodes p = names ∧
  node2cluster p !! k = n2c0 !! k ∧
  cluster_size p !! k = cs0 !! k.

(** Maximality of the clusters.  A node whose [cluster] is negative is
    not mapped; and for a representative of index [kr] and a later node of
    index [ku], once the pair is [done]: the node is in the cluster of a
    representative not after [kr], or an earlier member of the cluster of
    [kr] has the node in its [adj]. *)
Record greedy_max (l : list MemNode.t) (done : nat → nat → Prop) (p : plan)
    : Prop := {
  gm_unassigned : ∀ k nk c,
    l !! k = Some nk → mem_nodes p !! k = Some (MemNode.set_cluster c nk) →
    c < 0 → node2cluster p !! MemNode.name nk = None;
  gm_max : ∀ kr ku nr nu,
    l !! kr = Some nr → l !! ku = Some nu → (kr < ku)%nat → done kr ku →
    node2cluster p !! MemNode.name nr = Some (MemNode.name nr) →
    (∃ kr' nr', (kr' ≤ kr)%nat ∧ l !! kr' = Some nr' ∧
                node2cluster p !! MemNode.name nu = Some (MemNode.name nr')) ∨
    (∃ km nm, (km < ku)%nat ∧ l !! km = Some nm ∧
              node2cluster p !! MemNode.name nm = Some (MemNode.name nr) ∧
              MemNode.name nu ∈ MemNode.adj nm)
}.

(** Every name of [cluster_adj] comes from the [adj] of a member the inner
    loop has passed. *)
Definition covered (l : list MemNode.t) (ni : MemNode.t) (j : nat)
    (st : plan * gset string) : Prop :=
  ∀ x, x ∈ st.2 →
    ∃ km nm, (km < j)%nat ∧ l !! km = Some nm ∧
             node2cluster st.1 !! MemNode.name nm = Some (MemNode.name ni) ∧
             x ∈ MemNode.adj nm.

(** The step at which the operator after the prefix [pre] is visited:
    only operator nodes advance [max_lifecycle]. *)
Definition op_steps (pre : list Node) : Z :=
  Z.of_nat (length (filter (λ n, IsOp n = true) pre)).

(** A non-persistent variable named [v] is referenced, as input or output,
    by an operator other than "feed". *)
Definition references (op : Node) (v : string) : Prop :=
  IsOp op = true ∧ Name op ≠ "feed" ∧
  ∃ node vd, node ∈ inputs op ++ outputs op ∧ Var node = Some vd ∧
             Persistable vd = false ∧ Name node = v.

Definition referenced_at (ops : list Node) (s : Z) (v : string) : Prop :=
  ∃ pre op post, ops = pre ++ op :: post ∧ references op v ∧ s = op_steps pre.

(** [v] names an output of an operator "feed". *)
Definition feeds (op : Node) (v : string) : Prop :=
  IsOp op = true ∧ Name op = "feed" ∧ ∃ node, node ∈ outputs op ∧ Name node = v.

(** Starts are steps already taken, and no interval is empty. *)
Definition started (step : Z) (lc : gmap string (Z * Z)) : Prop :=
  ∀ v a b, lc !! v = Some (a, b) → 0 ≤ a ∧ a ≤ b ∧ a ≤ step.

(** [lc'] has the entries of [lc], with the same start and an end at least
    as late. *)
Definition extends (lc lc' : gmap string (Z * Z)) : Prop :=
  ∀ v a b, lc !! v = Some (a, b) → ∃ b', lc' !! v = Some (a, b') ∧ b ≤ b'.

(** [op] enters [v] into the map, by either branch. *)
Definition sights (op : Node) (v : string) : Prop :=
  feeds op v ∨ references op v.

(** * Properties *)

(** ** The loop rule *)

Lemma for_range_ind {St : Type} (Inv : nat → St → Prop) (lo hi : nat)
    (body : nat → St → St) (s : St) :
  (lo ≤ hi)%nat →
  Inv lo s →
  (∀ k t, (lo ≤ k < hi)%nat → Inv k t → Inv (S k) (body k t)) →
  Inv hi (for_range lo hi body s).
Proof.
  unfold for_range. intros Hle.
  remember (hi - lo)%nat as d eqn:Hd.
  assert (hi = (lo + d)%nat) as -> by lia. clear Hle Hd.
  revert lo s. induction d as [|d IH]; intros lo s H0 Hstep; simpl.
  - by rewrite Nat.add_0_r.
  - replace (lo + S d)%nat with (S lo + d)%nat by lia.
    apply IH.
    + apply Hstep; [lia | done].
    + intros k t Hk. apply Hstep. lia.
Qed.

Lemma for_range_empty {St : Type} (lo hi : nat) (body : nat → St → St) (s : St) :
  (hi ≤ lo)%nat → for_range lo hi body s = s.
Proof. intros H. unfold for_range. by replace (hi - lo)%nat with 0%nat by lia. Qed.

(** ** [overlap] *)

Lemma overlap_sym a b : overlap a b = overlap b a.
Proof. unfold overlap. apply andb_comm. Qed.

Lemma overlap_spec a b :
  overlap a b = true ↔ a.1 ≤ b.2 ∧ b.1 ≤ a.2.
Proof. unfold overlap. rewrite andb_true_iff, !Z.geb_le. tauto. Qed.

(** ** The candidate vector *)

Lemma make_mem_nodes_elem E lc st n :
  n ∈ make_mem_nodes E lc st ↔
  lc !! MemNode.name n = Some (MemNode.lifetime n) ∧
  st !! MemNode.name n = Some (MemNode.size n) ∧
  MemNode.cluster n = -1 ∧ MemNode.adj n = ∅.
Proof.
  unfold make_mem_nodes. rewrite list_elem_of_omap. split.
  - intros ([v l] & Hin & Hc). rewrite iterate_perm in Hin.
    apply elem_of_map_to_list in Hin. unfold candidate in Hc. simpl in Hc.
    destruct (st !! v) as [sz|] eqn:Hst; [|done]. by simplify_eq/=.
  - intros (Hlc & Hst & Hcl & Hadj).
    exists (MemNode.name n, MemNode.lifetime n). split.
    + rewrite iterate_perm. by apply elem_of_map_to_list.
    + unfold candidate. simpl. rewrite Hst. destruct n; simpl in *. by subst.
Qed.

Lemma candidate_names st l :
  (MemNode.name <$> omap (candidate st) l) `sublist_of` l.*1.
Proof.
  induction l as [|[v lt] l IH]; simpl; [constructor|].
  unfold candidate at 1. simpl. destruct (st !! v); simpl.
  - by constructor.
  - by apply sublist_cons.
Qed.

Lemma make_mem_nodes_NoDup E lc st :
  NoDup (MemNode.name <$> make_mem_nodes E lc st).
Proof.
  eapply sublist_NoDup; [|apply candidate_names].
  rewrite iterate_perm. apply NoDup_fst_map_to_list.
Qed.

Lemma make_mem_nodes_perm E1 E2 lc st :
  make_mem_nodes E1 lc st ≡ₚ make_mem_nodes E2 lc st.
Proof. unfold make_mem_nodes. by rewrite !iterate_perm. Qed.

(** ** The adjacency loops *)

Lemma adj_inv_equiv l done done' cur :
  (∀ k b, (k < length l)%nat → (b < length l)%nat → done k b ↔ done' k b) →
  adj_inv l done cur → adj_inv l done' cur.
Proof.
  intros Heq [Hlen H]. split; [done|].
  intros k nk Hk. destruct (H k nk Hk) as (a & Ha & Hx).
  exists a. split; [done|]. intros x. rewrite Hx.
  apply lookup_lt_Some in Hk as Hk'.
  split; (intros [?|(b & nb & Hb & ? & ? & Hd)]; [by left|right]);
    exists b, nb; (split_and!; [done..|]);
    apply lookup_lt_Some in Hb as Hb'; by apply (Heq k b).
Qed.

Lemma adj_inv_init l : adj_inv l (λ _ _, False) l.
Proof.
  split; [done|]. intros k nk Hk. exists (MemNode.adj nk). split.
  - rewrite Hk. by destruct nk.
  - intros x. naive_solver.
Qed.

Lemma link_inv l done cur i j :
  i ≠ j →
  adj_inv l done cur →
  adj_inv l (λ k b, done k b ∨ (k = i ∧ b = j) ∨ (k = j ∧ b = i)) (link i j cur).
Proof.
  intros Hij [Hlen H]. unfold link.
  destruct (cur !! i) as [ci|] eqn:Hci; cycle 1.
  { apply lookup_ge_None in Hci.
    eapply adj_inv_equiv; [|by split]. intros k b Hk Hb. simpl. intuition lia. }
  destruct (cur !! j) as [cj|] eqn:Hcj; cycle 1.
  { apply lookup_ge_None in Hcj.
    eapply adj_inv_equiv; [|by split]. intros k b Hk Hb. simpl. intuition lia. }
  destruct (lookup_lt_is_Some_2 l i) as [ni Hni];
    [rewrite <-Hlen; by eapply lookup_lt_Some|].
  destruct (lookup_lt_is_Some_2 l j) as [nj Hnj];
    [rewrite <-Hlen; by eapply lookup_lt_Some|].
  destruct (H i ni Hni) as (ai & Hai & Hxi).
  destruct (H j nj Hnj) as (aj & Haj & Hxj).
  rewrite Hci in Hai. rewrite Hcj in Haj. simplify_eq/=.
  destruct (overlap (MemNode.lifetime ni) (MemNode.lifetime nj)) eqn:Hov.
  - split; [by rewrite !length_insert|].
    intros k nk Hk.
    destruct (decide (k = j)) as [->|Hkj]; [|destruct (decide (k = i)) as [->|Hki]].
    + simplify_eq. exists ({[MemNode.name ni]} ∪ aj). split.
      * rewrite list_lookup_insert_eq; [done|].
        rewrite length_insert. by eapply lookup_lt_Some.
      * intros x. rewrite elem_of_union, elem_of_singleton, Hxj. split.
        -- intros [->|[?|(b & nb & ? & ? & ? & ?)]]; [|by left|].
           ++ right. exists i, ni. rewrite overlap_sym. naive_solver.
           ++ right. exists b, nb. naive_solver.
        -- intros [?|(b & nb & ? & ? & ? & [?|[[? ?]|[_ ->]]])]; [naive_solver| |done|].
           ++ right. right. exists b, nb. naive_solver.
           ++ left. by simplify_eq.
    + simplify_eq. exists ({[MemNode.name nj]} ∪ ai). split.
      * rewrite list_lookup_insert_ne by done.
        rewrite list_lookup_insert_eq; [done|]. by eapply lookup_lt_Some.
      * intros x. rewrite elem_of_union, elem_of_singleton, Hxi. split.
        -- intros [->|[?|(b & nb & ? & ? & ? & ?)]]; [|by left|].
           ++ right. exists j, nj. naive_solver.
           ++ right. exists b, nb. naive_solver.
        -- intros [?|(b & nb & ? & ? & ? & [?|[[_ ->]|[? ?]]])]; [naive_solver| | |done].
           ++ right. right. exists b, nb. naive_solver.
           ++ left. by simplify_eq.
    + destruct (H k nk Hk) as (a & Ha & Hx). exists a. split.
      * by rewrite !list_lookup_insert_ne by done.
      * intros x. rewrite Hx. split.
        -- intros [?|(b & nb & ? & ? & ? & ?)]; [by left|right].
           exists b, nb. naive_solver.
        -- intros [?|(b & nb & ? & ? & ? & [?|[[? ?]|[? ?]]])]; [by left| |done..].
           right. exists b, nb. naive_solver.
  - split; [done|]. intros k nk Hk.
    destruct (H k nk Hk) as (a & Ha & Hx). exists a. split; [done|].
    intros x. rewrite Hx. split.
    + intros [?|(b & nb & ? & ? & ? & ?)]; [by left|right].
      exists b, nb. naive_solver.
    + intros [?|(b & nb & Hb & ? & Hov' & [?|[[-> ->]|[-> ->]]])]; [by left| | |].
      * right. exists b, nb. naive_solver.
      * simplify_eq. congruence.
      * simplify_eq. rewrite overlap_sym in Hov'. congruence.
Qed.

Lemma build_adjacency_inv l :
  adj_inv l (λ k b, k ≠ b) (build_adjacency l).
Proof.
  unfold build_adjacency.
  eapply adj_inv_equiv; cycle 1.
  - apply (for_range_ind
             (λ i cur, adj_inv l (λ k b, k ≠ b ∧ (k < i ∨ b < i)%nat) cur));
      [lia| |].
    + eapply adj_inv_equiv; [|apply adj_inv_init]. intros; simpl; lia.
    + intros i cur Hi Hinv.
      eapply adj_inv_equiv; cycle 1.
      * apply (for_range_ind
                 (λ j cur, adj_inv l
                    (λ k b, k ≠ b ∧ ((k < i ∨ b < i) ∨ (k = i ∧ b < j) ∨
                                     (b = i ∧ k < j))%nat) cur));
          [lia| |].
        -- eapply adj_inv_equiv; [|exact Hinv]. intros; simpl; lia.
        -- intros j cur' Hj Hinv'.
           eapply adj_inv_equiv; cycle 1.
           { eapply (link_inv l); [|exact Hinv']. lia. }
           intros; simpl; lia.
      * intros; simpl; lia.
  - intros; simpl; lia.
Qed.

Lemma elem_of_adj_of l n x :
  x ∈ adj_of l n ↔
  ∃ m, m ∈ l ∧ MemNode.name m = x ∧ MemNode.name m ≠ MemNode.name n ∧
       overlap (MemNode.lifetime n) (MemNode.lifetime m) = true.
Proof.
  unfold adj_of. rewrite elem_of_list_to_set, list_elem_of_fmap.
  setoid_rewrite list_elem_of_filter. naive_solver.
Qed.

Lemma adj_of_perm l1 l2 n : l1 ≡ₚ l2 → adj_of l1 n = adj_of l2 n.
Proof.
  intros Hp. apply set_eq. intros x. rewrite !elem_of_adj_of.
  by setoid_rewrite Hp.
Qed.

Lemma build_adjacency_eq l :
  NoDup (MemNode.name <$> l) →
  (∀ n, n ∈ l → MemNode.adj n = ∅) →
  build_adjacency l = (λ n, MemNode.set_adj (adj_of l n) n) <$> l.
Proof.
  intros Hnd Hemp. destruct (build_adjacency_inv l) as [Hlen H].
  apply list_eq. intros k. rewrite list_lookup_fmap.
  destruct (l !! k) as [nk|] eqn:Hk; simpl.
  - destruct (H k nk Hk) as (a & -> & Hx). do 2 f_equal.
    apply set_eq. intros x. rewrite Hx, elem_of_adj_of.
    rewrite (Hemp nk) by (by eapply list_elem_of_lookup_2). split.
    + intros [?|(b & nb & Hb & <- & Hov & Hne)]; [set_solver|].
      exists nb. split_and!; [by eapply list_elem_of_lookup_2|done| |done].
      intros Heq. apply Hne. symmetry.
      eapply (NoDup_lookup _ _ _ _ Hnd); rewrite list_lookup_fmap.
      * by rewrite Hb.
      * by rewrite Hk, Heq.
    + intros (m & Hm & <- & Hne & Hov). right.
      apply list_elem_of_lookup in Hm as [b Hb]. exists b, m.
      split_and!; [done..|]. intros ->. congruence.
  - apply lookup_ge_None. rewrite Hlen. by apply lookup_ge_None.
Qed.

(** ** The sorted vector *)

Lemma build_adjacency_make E lc st :
  build_adjacency (make_mem_nodes E lc st) =
  (λ n, MemNode.set_adj (adj_of (make_mem_nodes E lc st) n) n)
    <$> make_mem_nodes E lc st.
Proof.
  apply build_adjacency_eq; [apply make_mem_nodes_NoDup|].
  intros n Hn. by apply make_mem_nodes_elem in Hn as (_ & _ & _ & ?).
Qed.

Lemma sorted_nodes_elem E lc st n :
  n ∈ sorted_nodes E lc st ↔
  ∃ n0, n0 ∈ make_mem_nodes E lc st ∧
        n = MemNode.set_adj (adj_of (make_mem_nodes E lc st) n0) n0.
Proof.
  unfold sorted_nodes. rewrite std_sort_perm, build_adjacency_make.
  rewrite list_elem_of_fmap. naive_solver.
Qed.

Lemma sorted_nodes_names E lc st :
  MemNode.name <$> sorted_nodes E lc st ≡ₚ
  MemNode.name <$> make_mem_nodes E lc st.
Proof.
  unfold sorted_nodes. rewrite std_sort_perm, build_adjacency_make.
  rewrite <-list_fmap_compose. done.
Qed.

Lemma sorted_nodes_lookup E lc st n :
  n ∈ sorted_nodes E lc st →
  lc !! MemNode.name n = Some (MemNode.lifetime n) ∧
  st !! MemNode.name n = Some (MemNode.size n).
Proof.
  rewrite sorted_nodes_elem. intros (n0 & Hn0 & ->).
  apply make_mem_nodes_elem in Hn0. naive_solver.
Qed.

Lemma sorted_nodes_candidate E lc st v lt sz :
  lc !! v = Some lt → st !! v = Some sz →
  ∃ n, n ∈ sorted_nodes E lc st ∧ MemNode.name n = v ∧
       MemNode.lifetime n = lt ∧ MemNode.size n = sz.
Proof.
  intros Hlc Hst.
  exists (MemNode.set_adj (adj_of (make_mem_nodes E lc st) (MemNode.mk v sz (-1) lt ∅))
                          (MemNode.mk v sz (-1) lt ∅)).
  split; [|done]. apply sorted_nodes_elem. eexists. split; [|done].
  by apply make_mem_nodes_elem.
Qed.

Lemma sorted_nodes_wf E lc st : well_formed (sorted_nodes E lc st).
Proof.
  split_and!.
  - rewrite sorted_nodes_names. apply make_mem_nodes_NoDup.
  - intros n (n0 & Hn0 & ->)%sorted_nodes_elem. simpl.
    by apply make_mem_nodes_elem in Hn0 as (_ & _ & ? & _).
  - intros n m (n0 & Hn0 & ->)%sorted_nodes_elem (m0 & Hm0 & ->)%sorted_nodes_elem.
    simpl. rewrite elem_of_adj_of. split.
    + intros (m' & Hm' & Hname & Hne & Hov). rewrite <-Hname. split; [done|].
      assert (m' = m0) as ->; [|done].
      apply make_mem_nodes_elem in Hm' as (Hl1 & Hs1 & Hc1 & Ha1).
      apply make_mem_nodes_elem in Hm0 as (Hl2 & Hs2 & Hc2 & Ha2).
      rewrite Hname in Hl1, Hs1. destruct m', m0; simpl in *. congruence.
    + intros [Hne Hov]. exists m0. done.
Qed.

Lemma sorted_nodes_sorted E lc st :
  StronglySorted (λ a b, MemNode.size b ≤ MemNode.size a) (sorted_nodes E lc st).
Proof.
  generalize (std_sort_sorted E (build_adjacency (make_mem_nodes E lc st))).
  fold (sorted_nodes E lc st).
  induction 1 as [|a l Hl IH Hall]; constructor; [done|].
  eapply Forall_impl; [exact Hall|].
  intros b. unfold sort_func. simpl. lia.
Qed.

(** ** The greedy pass *)

Lemma wf_lookup_inj l a b na nb :
  NoDup (MemNode.name <$> l) →
  l !! a = Some na → l !! b = Some nb →
  MemNode.name na = MemNode.name nb → a = b.
Proof.
  intros Hnd Ha Hb Heq.
  eapply (NoDup_lookup _ _ _ _ Hnd); rewrite list_lookup_fmap.
  - by rewrite Ha.
  - by rewrite Hb, Heq.
Qed.

Lemma wf_elem_inj l n m :
  NoDup (MemNode.name <$> l) →
  n ∈ l → m ∈ l → MemNode.name n = MemNode.name m → n = m.
Proof.
  intros Hnd [a Ha]%list_elem_of_lookup [b Hb]%list_elem_of_lookup Heq.
  assert (a = b) as -> by eauto using wf_lookup_inj. congruence.
Qed.

Lemma adj_sym l n m :
  well_formed l → n ∈ l → m ∈ l →
  MemNode.name m ∉ MemNode.adj n → MemNode.name n ∉ MemNode.adj m.
Proof.
  intros (_ & _ & Hadj) Hn Hm. rewrite !Hadj by done.
  rewrite (overlap_sym (MemNode.lifetime m)). naive_solver.
Qed.

Lemma admit_node_inv l i ni cidx j st :
  well_formed l →
  l !! i = Some ni → (i < j)%nat →
  inner_inv l i ni st →
  inner_inv l i ni (admit_node (MemNode.name ni) cidx j st).
Proof.
  intros Hwf Hi Hij (HG & Hroot & Hrcs & Hadj). pose proof Hwf as (Hnd & _ & _).
  destruct st as [p cadj]. unfold admit_node. simpl in *.
  destruct (mem_nodes p !! j) as [cj|] eqn:Hcj; [|done].
  destruct (MemNode.cluster cj <? 0) eqn:Hneg; simpl; [|done].
  case_bool_decide as Hfree; simpl; [|done].
  destruct (lookup_lt_is_Some_2 l j) as [nj Hj];
    [rewrite <-(gi_len _ _ _ HG); by eapply lookup_lt_Some|].
  destruct (gi_nodes _ _ _ HG j nj Hj) as (c & Hc & _).
  rewrite Hcj in Hc. simplify_eq/=.
  assert (Hni_in : ni ∈ l) by (by eapply list_elem_of_lookup_2).
  assert (Hnj_in : nj ∈ l) by (by eapply list_elem_of_lookup_2).
  assert (Hne : MemNode.name nj ≠ MemNode.name ni).
  { intros Heq. assert (j = i) by eauto using wf_lookup_inj. lia. }
  assert (Hfresh : ∀ k nk, (k < S i)%nat → l !! k = Some nk →
                           MemNode.name nj ≠ MemNode.name nk).
  { intros k nk Hk Hlk Heq. assert (j = k) by eauto using wf_lookup_inj. lia. }
  split_and!; simpl.
  - split; simpl.
    + by rewrite length_insert, (gi_len _ _ _ HG).
    + intros k nk Hk. destruct (decide (k = j)) as [->|Hkj].
      * simplify_eq. exists cidx. split.
        -- rewrite list_lookup_insert_eq; [done|]. by eapply lookup_lt_Some.
        -- intros _. rewrite lookup_insert_eq. eauto.
      * destruct (gi_nodes _ _ _ HG k nk Hk) as (c' & Hc' & Hm).
        exists c'. split; [by rewrite list_lookup_insert_ne|].
        intros Hpos. rewrite lookup_insert. case_decide; eauto.
    + intros k nk Hk Hlk. rewrite lookup_insert. case_decide; [eauto|].
      by eapply (gi_done _ _ _ HG).
    + intros u r. rewrite lookup_insert. case_decide as Hu.
      * intros [= <-]. subst u. exists i, j, ni, nj.
        split_and!; [done..|lia|lia| |done].
        by rewrite lookup_insert_ne.
      * intros Hur.
        destruct (gi_rep _ _ _ HG _ _ Hur)
          as (kr & ku & nr & nu & Hkr & Hku & Hnr & Hnu & Hle & Hlt & Hrr & Hcs).
        exists kr, ku, nr, nu. split_and!; [done..| |done].
        rewrite lookup_insert_ne; [done|]. rewrite <-Hnr. by eapply Hfresh.
    + intros nu nv r Hnu Hnv. rewrite !lookup_insert.
      case_decide as Hu; case_decide as Hv.
      * congruence.
      * intros [= <-] Hvr _.
        assert (nu = nj) as -> by eauto using wf_elem_inj.
        eapply adj_sym; [done..|].
        specialize (Hadj nv Hnv Hvr). set_solver.
      * intros Hur [= <-] _.
        assert (nv = nj) as -> by eauto using wf_elem_inj.
        specialize (Hadj nu Hnu Hur). set_solver.
      * by apply (gi_sep _ _ _ HG).
    + intros r s Hcs. pose proof (gi_cs _ _ _ HG _ _ Hcs) as Hrr.
      rewrite lookup_insert_ne; [done|].
      destruct (gi_rep _ _ _ HG _ _ Hrr)
        as (kr & ku & nr & nu & Hkr & Hku & Hnr & Hnu & Hle & Hlt & _).
      rewrite <-Hnr. by eapply Hfresh.
  - by rewrite lookup_insert_ne.
  - done.
  - intros nu Hnu. rewrite lookup_insert. case_decide as Hu.
    + intros _. assert (nj = nu) as -> by eauto using wf_elem_inj. set_solver.
    + intros Hur. specialize (Hadj nu Hnu Hur). set_solver.
Qed.

Lemma open_cluster_inv l i p :
  well_formed l → (i < length l)%nat →
  greedy_inv l i p → greedy_inv l (S i) (open_cluster i p).
Proof.
  intros Hwf Hi HG. pose proof Hwf as (Hnd & _ & _).
  destruct (lookup_lt_is_Some_2 l i Hi) as [ni Hni].
  destruct (gi_nodes _ _ _ HG i ni Hni) as (c & Hc & Hmapped).
  assert (Hni_in : ni ∈ l) by (by eapply list_elem_of_lookup_2).
  unfold open_cluster. rewrite Hc. simpl.
  destruct (c >=? 0) eqn:Hsign.
  { (* already assigned: [continue] *)
    destruct HG as [G1 G2 G3 G4 G5 G6]. split; try done.
    - intros k nk Hk Hlk. destruct (decide (k = i)) as [->|].
      + simplify_eq. apply Hmapped. lia.
      + apply (G3 k); [lia|done].
    - intros u r Hur.
      destruct (G4 _ _ Hur) as (kr & ku & nr & nu & ? & ? & ? & ? & ? & ? & ? & ?).
      exists kr, ku, nr, nu. split_and!; [done..|lia|done|done]. }
  set (cidx := cast_int (Z.of_nat (size (cluster_size p)))).
  assert (Hnoroot : ∀ u, node2cluster p !! u ≠ Some (MemNode.name ni)).
  { intros u Hur.
    destruct (gi_rep _ _ _ HG _ _ Hur) as (kr & ku & nr & nu & Hkr & _ & Hnr & _ & _ & Hlt & _).
    assert (kr = i) by eauto using wf_lookup_inj. lia. }
  assert (Hother : ∀ k nk, (k < i)%nat → l !! k = Some nk →
                           MemNode.name ni ≠ MemNode.name nk).
  { intros k nk Hk Hlk Heq. assert (i = k) by eauto using wf_lookup_inj. lia. }
  refine (proj1 (for_range_ind (λ _ st, inner_inv l i ni st) (S i) _ _ _ _ _ _)).
  - rewrite (gi_len _ _ _ HG). lia.
  - split_and!; simpl.
    + split; simpl.
      * by rewrite length_insert, (gi_len _ _ _ HG).
      * intros k nk Hk. destruct (decide (k = i)) as [->|Hki].
        -- simplify_eq. exists cidx. split.
           ++ rewrite list_lookup_insert_eq; [done|]. by rewrite (gi_len _ _ _ HG).
           ++ intros _. rewrite lookup_insert_eq. eauto.
        -- destruct (gi_nodes _ _ _ HG k nk Hk) as (c' & Hc' & Hm).
           exists c'. split; [by rewrite list_lookup_insert_ne|].
           intros Hpos. rewrite lookup_insert. case_decide; eauto.
      * intros k nk Hk Hlk. rewrite lookup_insert. case_decide; [eauto|].
        destruct (decide (k = i)) as [->|]; [by simplify_eq|].
        apply (gi_done _ _ _ HG k); [lia|done].
      * intros u r. rewrite lookup_insert. case_decide as Hu.
        -- intros [= <-]. subst u. exists i, i, ni, ni.
           split_and!; [done..|lia|lia| |]; by rewrite lookup_insert_eq.
        -- intros Hur.
           destruct (gi_rep _ _ _ HG _ _ Hur)
             as (kr & ku & nr & nu & Hkr & Hku & Hnr & Hnu & Hle & Hlt & Hrr & Hcs).
           assert (MemNode.name ni ≠ r) by (rewrite <-Hnr; by eapply Hother).
           exists kr, ku, nr, nu. rewrite !lookup_insert_ne by done.
           split_and!; [done..|lia|done|done].
      * intros nu nv r Hnu Hnv. rewrite !lookup_insert.
        case_decide as Hu; case_decide as Hv.
        -- congruence.
        -- intros [= <-] Hvr _. by apply Hnoroot in Hvr.
        -- intros Hur [= <-] _. by apply Hnoroot in Hur.
        -- by apply (gi_sep _ _ _ HG).
      * intros r s. rewrite !lookup_insert. case_decide as Hr; [by subst|].
        by apply (gi_cs _ _ _ HG).
    + by rewrite lookup_insert_eq.
    + by rewrite lookup_insert_eq.
    + intros nu Hnu. rewrite lookup_insert. case_decide as Hu.
      * intros _. by assert (ni = nu) as -> by eauto using wf_elem_inj.
      * intros Hur. by apply Hnoroot in Hur.
  - intros j st Hj Hinv. apply admit_node_inv; [done..|lia|done].
Qed.

Lemma greedy_inv_init l : well_formed l → greedy_inv l 0 (mkPlan l ∅ ∅).
Proof.
  intros (_ & Hcl & _). split; simpl; try done.
  - intros k nk Hk. exists (-1). split; [|lia].
    rewrite Hk. f_equal. rewrite <-(Hcl nk) by (by eapply list_elem_of_lookup_2).
    by destruct nk.
  - intros; lia.
Qed.

Lemma greedy_spec l :
  well_formed l → greedy_inv l (length l) (greedy (mkPlan l ∅ ∅)).
Proof.
  intros Hwf. unfold greedy. simpl.
  apply (for_range_ind (λ i p, greedy_inv l i p)); [lia| |].
  - by apply greedy_inv_init.
  - intros i p Hi. apply open_cluster_inv; [done|lia].
Qed.

(** ** The plan [MakeSimpleReusePlan] returns into empty maps *)

Lemma MakeSimpleReusePlan_plan_of E lc st :
  MakeSimpleReusePlan E lc st ∅ ∅ =
  (node2cluster (plan_of E lc st), cluster_size (plan_of E lc st)).
Proof. reflexivity. Qed.

Lemma plan_of_inv E lc st :
  greedy_inv (sorted_nodes E lc st) (length (sorted_nodes E lc st)) (plan_of E lc st).
Proof. apply greedy_spec, sorted_nodes_wf. Qed.

Lemma StronglySorted_lookup {A} (R : A → A → Prop) (l : list A) a b x y :
  StronglySorted R l → (a < b)%nat →
  l !! a = Some x → l !! b = Some y → R x y.
Proof.
  intros Hs. revert a b. induction Hs as [|z l Hs IH Hall]; intros a b Hab Ha Hb.
  - done.
  - destruct b as [|b]; [lia|]. destruct a as [|a]; simpl in *.
    + simplify_eq. rewrite Forall_forall in Hall.
      apply Hall. by eapply list_elem_of_lookup_2.
    + apply (IH a b); [lia|done..].
Qed.

(** The keys of [node2cluster] are the keys common to both input maps. *)
Lemma plan_keys E lc st u :
  is_Some (node2cluster (plan_of E lc st) !! u) ↔
  is_Some (lc !! u) ∧ is_Some (st !! u).
Proof.
  pose proof (plan_of_inv E lc st) as HG. split.
  - intros [r Hr].
    destruct (gi_rep _ _ _ HG _ _ Hr) as (kr & ku & nr & nu & _ & Hku & _ & <- & _).
    apply list_elem_of_lookup_2, sorted_nodes_lookup in Hku as [-> ->]. eauto.
  - intros [[lt Hlt] [sz Hsz]].
    destruct (sorted_nodes_candidate E lc st u lt sz) as (n & Hn & <- & _); [done..|].
    apply list_elem_of_lookup in Hn as [k Hk].
    eapply (gi_done _ _ _ HG k); [by eapply lookup_lt_Some|done].
Qed.

(** A representative maps to itself, is at least as large as each member
    of its cluster, and [cluster_size] holds its size converted to [int]. *)
Lemma plan_rep E lc st u r :
  node2cluster (plan_of E lc st) !! u = Some r →
  node2cluster (plan_of E lc st) !! r = Some r ∧
  ∃ su sr, st !! u = Some su ∧ st !! r = Some sr ∧ su ≤ sr ∧
           cluster_size (plan_of E lc st) !! r = Some (cast_int sr).
Proof.
  pose proof (plan_of_inv E lc st) as HG. intros Hr.
  destruct (gi_rep _ _ _ HG _ _ Hr)
    as (kr & ku & nr & nu & Hkr & Hku & <- & <- & Hle & _ & Hrr & Hcs).
  split; [done|]. exists (MemNode.size nu), (MemNode.size nr).
  pose proof (sorted_nodes_lookup E lc st nr (list_elem_of_lookup_2 _ _ _ Hkr)) as Hr'.
  pose proof (sorted_nodes_lookup E lc st nu (list_elem_of_lookup_2 _ _ _ Hku)) as Hu'.
  split_and!; [naive_solver..| |done].
  destruct (decide (kr = ku)) as [->|Hne]; [by simplify_eq|].
  apply (StronglySorted_lookup _ _ kr ku nr nu (sorted_nodes_sorted E lc st));
    [lia|done..].
Qed.

(** Two distinct members of one cluster never overlap. *)
Lemma plan_sep E lc st u v r lu lv :
  node2cluster (plan_of E lc st) !! u = Some r →
  node2cluster (plan_of E lc st) !! v = Some r →
  u ≠ v → lc !! u = Some lu → lc !! v = Some lv →
  overlap lu lv = false.
Proof.
  pose proof (plan_of_inv E lc st) as HG.
  pose proof (sorted_nodes_wf E lc st) as Hwf.
  intros Hu Hv Hne Hlu Hlv.
  destruct (gi_rep _ _ _ HG _ _ Hu) as (_ & ku & _ & nu & _ & Hku & _ & <- & _).
  destruct (gi_rep _ _ _ HG _ _ Hv) as (_ & kv & _ & nv & _ & Hkv & _ & <- & _).
  apply list_elem_of_lookup_2 in Hku, Hkv.
  pose proof (gi_sep _ _ _ HG nu nv r Hku Hkv Hu Hv Hne) as Hsep.
  destruct Hwf as (_ & _ & Hadj). rewrite (Hadj nu nv) in Hsep by done.
  apply sorted_nodes_lookup in Hku as [Hl1 _], Hkv as [Hl2 _].
  simplify_eq. destruct (overlap _ _); naive_solver.
Qed.

Lemma plan_cs E lc st r s :
  cluster_size (plan_of E lc st) !! r = Some s →
  node2cluster (plan_of E lc st) !! r = Some r.
Proof. apply (gi_cs _ _ _ (plan_of_inv E lc st)). Qed.

(** ** Independence of the standard library *)

Lemma NoDup_omap_inj {A B} (f : A → option B) (l : list A) x y b :
  NoDup (omap f l) → x ∈ l → y ∈ l → f x = Some b → f y = Some b → x = y.
Proof.
  induction l as [|a l IH]; simpl; intros Hnd Hx Hy Hfx Hfy.
  - by apply elem_of_nil in Hx.
  - assert (Hin : ∀ z, z ∈ l → f z = Some b → b ∈ omap f l).
    { intros z Hz Hfz. apply list_elem_of_omap. eauto. }
    apply elem_of_cons in Hx as [->|Hx], Hy as [->|Hy]; [done| | |].
    + rewrite Hfx in Hnd. apply NoDup_cons in Hnd as [Hb _].
      destruct Hb. eauto.
    + rewrite Hfy in Hnd. apply NoDup_cons in Hnd as [Hb _].
      destruct Hb. eauto.
    + apply IH; [|done..]. destruct (f a); [|done].
      by apply NoDup_cons in Hnd as [_ ?].
Qed.

Lemma distinct_sizes_inj lc st u v lu lv s :
  distinct_sizes lc st →
  lc !! u = Some lu → lc !! v = Some lv →
  st !! u = Some s → st !! v = Some s → u = v.
Proof.
  intros Hd Hu Hv Hsu Hsv.
  apply elem_of_map_to_list in Hu, Hv.
  by pose proof (NoDup_omap_inj _ _ (u, lu) (v, lv) s Hd Hu Hv Hsu Hsv) as [= -> _].
Qed.

Lemma sorted_nodes_unique E1 E2 lc st :
  distinct_sizes lc st → sorted_nodes E1 lc st = sorted_nodes E2 lc st.
Proof.
  intros Hd.
  assert (Hadj : ∀ n, adj_of (make_mem_nodes E1 lc st) n =
                      adj_of (make_mem_nodes E2 lc st) n).
  { intros n. apply adj_of_perm, make_mem_nodes_perm. }
  apply (StronglySorted_unique_strong (λ a b, sort_func b a = false)).
  - intros x1 x2 (n1 & Hn1 & ->)%sorted_nodes_elem (n2 & Hn2 & ->)%sorted_nodes_elem.
    unfold sort_func. simpl. intros H1 H2.
    assert (MemNode.size n1 = MemNode.size n2) as Hsz by lia.
    apply make_mem_nodes_elem in Hn1 as (Hl1 & Hs1 & Hc1 & Ha1).
    apply make_mem_nodes_elem in Hn2 as (Hl2 & Hs2 & Hc2 & Ha2).
    assert (MemNode.name n1 = MemNode.name n2) as Hname.
    { eapply distinct_sizes_inj; eauto. by rewrite Hsz. }
    assert (n1 = n2) as ->.
    { destruct n1, n2; simpl in *. congruence. }
    by rewrite Hadj.
  - apply std_sort_sorted.
  - apply std_sort_sorted.
  - unfold sorted_nodes. rewrite !std_sort_perm, !build_adjacency_make.
    rewrite (make_mem_nodes_perm E1 E2).
    apply reflexive_eq, list_fmap_ext. intros ? n _. by rewrite Hadj.
Qed.

Lemma plan_unique E1 E2 lc st n2c cs :
  distinct_sizes lc st →
  MakeSimpleReusePlan E1 lc st n2c cs = MakeSimpleReusePlan E2 lc st n2c cs.
Proof.
  intros Hd. unfold MakeSimpleReusePlan.
  fold (sorted_nodes E1 lc st). fold (sorted_nodes E2 lc st).
  by rewrite (sorted_nodes_unique E1 E2).
Qed.

(** ** Loops that may throw *)

Lemma for_each_app {A St} (body : A → St → result St) l1 l2 s :
  for_each body (l1 ++ l2) s =
  bind (for_each body l1 s) (for_each body l2).
Proof.
  revert s. induction l1 as [|x l1 IH]; intros s; simpl; [done|].
  destruct (body x s); simpl; [apply IH|done].
Qed.

(** A loop whose body throws on exactly the elements satisfying [P],
    whatever the state, throws exactly when some element satisfies [P]. *)
Lemma for_each_throw_iff {A St} (body : A → St → result St) (P : A → Prop)
    (e : error) l s :
  (∀ x t, x ∈ l → (∃ t', body x t = Ok t') ∧ ¬ P x ∨ body x t = Throw e ∧ P x) →
  ((∃ s', for_each body l s = Ok s') ∧ ¬ (∃ x, x ∈ l ∧ P x)) ∨
  (for_each body l s = Throw e ∧ ∃ x, x ∈ l ∧ P x).
Proof.
  revert s. induction l as [|x l IH]; intros s Hbody; simpl.
  - left. split; [eauto|]. intros (x & Hx & _). by apply elem_of_nil in Hx.
  - destruct (Hbody x s) as [[[t' Ht'] Hnp]|[Ht HP]]; [by left| |].
    + rewrite Ht'. simpl.
      destruct (IH t') as [[Hok Hno]|[Hthrow (y & Hy & HPy)]].
      * intros y t Hy. apply Hbody. by right.
      * left. split; [done|]. intros (y & [->|Hy]%elem_of_cons & HPy); [done|].
        apply Hno. eauto.
      * right. split; [done|]. exists y. split; [by right|done].
    + rewrite Ht. simpl. right. split; [done|]. exists x. split; [by left|done].
Qed.

(** A loop state invariant, for the runs that return. *)
Lemma for_each_inv {A St} (body : A → St → result St) (Inv : St → Prop) l s s' :
  (∀ x t t', x ∈ l → Inv t → body x t = Ok t' → Inv t') →
  Inv s → for_each body l s = Ok s' → Inv s'.
Proof.
  revert s. induction l as [|x l IH]; intros s Hbody Hs; simpl.
  - by intros [= <-].
  - destruct (body x s) as [t|] eqn:Hx; simpl; [|done].
    apply IH.
    + intros y t1 t2 Hy. apply Hbody. by right.
    + eapply Hbody; [by left|done..].
Qed.

Lemma foldl_inv {A St} (f : St → A → St) (Inv : St → Prop) l s :
  (∀ x t, x ∈ l → Inv t → Inv (f t x)) → Inv s → Inv (foldl f s l).
Proof.
  revert s. induction l as [|x l IH]; intros s Hf Hs; simpl; [done|].
  apply IH.
  - intros y t Hy. apply Hf. by right.
  - apply Hf; [by left|done].
Qed.

(** ** [CollectVarMemorySize]: which variables get a size *)

Lemma scan_ops_true l :
  scan_ops l = Ok true →
  ∀ op, op ∈ l → IsOp op = true ∧ Name op ∉ invalid_op.
Proof.
  induction l as [|tmp l IH]; simpl; intros Hs op Hop.
  - by apply elem_of_nil in Hop.
  - destruct (IsOp tmp) eqn:Hisop; simpl in Hs; [|done].
    case_bool_decide as Hbad; [done|].
    apply elem_of_cons in Hop as [->|Hop]; [done|]. by apply IH.
Qed.

Lemma scan_ops_false l :
  scan_ops l = Ok false → ∃ op, op ∈ l ∧ Name op ∈ invalid_op.
Proof.
  induction l as [|tmp l IH]; simpl; intros Hs; [done|].
  destruct (IsOp tmp); simpl in Hs; [|done].
  case_bool_decide as Hbad.
  - exists tmp. split; [by left|done].
  - destruct (IH Hs) as (op & Hop & Hinv). exists op. split; [by right|done].
Qed.

Lemma valid_var_true node :
  valid_var node = Ok true →
  ∀ op, op ∈ inputs node ++ outputs node → Name op ∉ invalid_op.
Proof.
  unfold valid_var. intros Hv op Hop.
  destruct (scan_ops (inputs node)) as [[|]|] eqn:Hin; simpl in Hv; [|done..].
  apply elem_of_app in Hop as [Hop|Hop].
  - by apply (scan_ops_true _ Hin).
  - by apply (scan_ops_true _ Hv).
Qed.

Lemma valid_var_false node :
  valid_var node = Ok false →
  ∃ op, op ∈ inputs node ++ outputs node ∧ Name op ∈ invalid_op.
Proof.
  unfold valid_var. intros Hv.
  destruct (scan_ops (inputs node)) as [[|]|] eqn:Hin; simpl in Hv; [| |done].
  - destruct (scan_ops_false _ Hv) as (op & ? & ?). exists op.
    rewrite elem_of_app. eauto.
  - destruct (scan_ops_false _ Hin) as (op & ? & ?). exists op.
    rewrite elem_of_app. eauto.
Qed.

(** The black list holds the names of the dense-tensor variable nodes
    that [valid_var] rejects, and nothing else. *)
Lemma collect_black_spec nodes bl0 bl x :
  for_each collect_black nodes bl0 = Ok bl →
  x ∈ bl ↔
  x ∈ bl0 ∨ ∃ node, node ∈ nodes ∧ Name node = x ∧
                    is_Some (dense_var node) ∧ valid_var node = Ok false.
Proof.
  revert bl0. induction nodes as [|n nodes IH]; intros bl0; simpl.
  - intros [= <-]. split; [by left|]. intros [?|(? & []%elem_of_nil & _)]. done.
  - unfold collect_black at 1.
    destruct (dense_var n) as [vd|] eqn:Hd; simpl.
    + destruct (valid_var n) as [[|]|] eqn:Hv; simpl; [| |done].
      * intros Hrest. rewrite (IH _ Hrest). split.
        -- intros [?|(m & ? & ?)]; [by left|]. right. exists m.
           split; [by right|done].
        -- intros [?|(m & [->|?]%elem_of_cons & ? & ? & ?)]; [by left|congruence|].
           right. exists m. done.
      * intros Hrest. rewrite (IH _ Hrest). rewrite elem_of_union, elem_of_singleton.
        split.
        -- intros [[->|?]|(m & ? & ?)]; [|by left|].
           ++ right. exists n. split_and!; [by left|done|by rewrite Hd|done].
           ++ right. exists m. split; [by right|done].
        -- intros [?|(m & [->|?]%elem_of_cons & Hname & ? & ?)]; [tauto|by left; left|].
           right. exists m. done.
    + intros Hrest. rewrite (IH _ Hrest). split.
      * intros [?|(m & ? & ?)]; [by left|]. right. exists m. split; [by right|done].
      * intros [?|(m & [->|?]%elem_of_cons & ? & [? Hs] & ?)]; [by left|congruence|].
        right. exists m. eauto.
Qed.

(** When the black-list loop returns, [valid_var] returned on every
    dense-tensor variable node. *)
Lemma collect_black_returns nodes bl0 bl node :
  for_each collect_black nodes bl0 = Ok bl →
  node ∈ nodes → is_Some (dense_var node) →
  ∃ ok, valid_var node = Ok ok.
Proof.
  revert bl0. induction nodes as [|n nodes IH]; intros bl0; simpl.
  - intros _ []%elem_of_nil.
  - unfold collect_black at 1. intros Hrun Hin [vd Hd].
    apply elem_of_cons in Hin as [<-|Hin].
    + rewrite Hd in Hrun. destruct (valid_var node); [eauto|done].
    + destruct (dense_var n); simpl in Hrun; [|by eapply IH; eauto].
      destruct (valid_var n); simpl in Hrun; [|done]. by eapply IH; eauto.
Qed.

Lemma collect_size_spec F bl nodes st0 v s :
  foldl (λ tbl node, collect_size F bl node tbl) st0 nodes !! v = Some s →
  st0 !! v = Some s ∨
  ∃ node vd, node ∈ nodes ∧ Name node = v ∧ dense_var node = Some vd ∧
             Persistable vd = false ∧ (v ∉ bl) ∧ s = var_size F vd.
Proof.
  revert st0. induction nodes as [|n nodes IH]; intros st0; simpl; [by left|].
  intros Hl. destruct (IH _ Hl) as [Hn|(m & vd & ? & ?)].
  - unfold collect_size in Hn.
    destruct (dense_var n) as [vd|] eqn:Hd; [|by left].
    case_bool_decide as Hbl; [by left|].
    destruct (Persistable vd) eqn:Hp; [by left|].
    rewrite lookup_insert in Hn. case_decide as Hname; [|by left].
    right. exists n, vd. simplify_eq. split_and!; [by left|done..].
  - right. exists m, vd. split; [by right|done].
Qed.

(** Every entry of the size table comes from a dense-tensor variable
    node that is not persistent and whose name is not black-listed. *)
Lemma space_table_entry F g st v s :
  CollectVarMemorySize F g ∅ = Ok st → st !! v = Some s →
  ∃ bl node vd,
    for_each collect_black (Nodes g) ∅ = Ok bl ∧
    node ∈ Nodes g ∧ Name node = v ∧ dense_var node = Some vd ∧
    Persistable vd = false ∧ (v ∉ bl) ∧ s = var_size F vd.
Proof.
  unfold CollectVarMemorySize.
  destruct (for_each collect_black (Nodes g) ∅) as [bl|] eqn:Hbl; simpl; [|done].
  intros [= <-] Hl. apply collect_size_spec in Hl as [Hl|(node & vd & ?)].
  - by rewrite lookup_empty in Hl.
  - exists bl, node, vd. done.
Qed.

Lemma dense_var_IsVar node vd : dense_var node = Some vd → IsVar node = true.
Proof. unfold dense_var. by destruct (IsVar node). Qed.

Lemma dense_var_Var node vd : dense_var node = Some vd → Var node = Some vd.
Proof.
  unfold dense_var. destruct (IsVar node); [|done].
  destruct (Var node) as [vd'|]; [|done]. case_bool_decide; naive_solver.
Qed.

Lemma dense_var_same g n1 n2 vd :
  names_identify_variables g →
  n1 ∈ Nodes g → n2 ∈ Nodes g → IsVar n1 = true → Name n1 = Name n2 →
  dense_var n2 = Some vd → dense_var n1 = Some vd.
Proof.
  intros Hg H1 H2 Hv1 Hname Hd.
  pose proof (dense_var_IsVar _ _ Hd) as Hv2.
  pose proof (Hg n1 n2 H1 H2 Hv1 Hv2 Hname) as HVar.
  unfold dense_var in *. rewrite Hv1, HVar. by rewrite Hv2 in Hd.
Qed.

(** No variable touched by an operator of the black list gets a size. *)
Lemma blacklisted_no_size F g st node op :
  names_identify_variables g →
  CollectVarMemorySize F g ∅ = Ok st →
  node ∈ Nodes g → IsVar node = true →
  op ∈ inputs node ++ outputs node → Name op ∈ invalid_op →
  st !! Name node = None.
Proof.
  intros Hg Hrun Hnode Hvar Hop Hbad.
  destruct (st !! Name node) as [s|] eqn:Hs; [exfalso|done].
  destruct (space_table_entry _ _ _ _ _ Hrun Hs)
    as (bl & n' & vd & Hbl & Hn' & Hname & Hd & _ & Hnotin & _).
  pose proof (dense_var_same g node n' vd Hg Hnode Hn' Hvar (eq_sym Hname) Hd) as Hd'.
  apply Hnotin. apply (collect_black_spec _ _ _ _ Hbl). right.
  exists node. split_and!; [done..|by rewrite Hd'|].
  destruct (collect_black_returns _ _ _ node Hbl Hnode) as [[|] Hok];
    [by rewrite Hd'| |done].
  by pose proof (valid_var_true _ Hok op Hop).
Qed.

(** No persistent variable gets a size. *)
Lemma persistent_no_size F g st node vd :
  names_identify_variables g →
  CollectVarMemorySize F g ∅ = Ok st →
  node ∈ Nodes g → IsVar node = true →
  Var node = Some vd → Persistable vd = true →
  st !! Name node = None.
Proof.
  intros Hg Hrun Hnode Hvar HVar Hp.
  destruct (st !! Name node) as [s|] eqn:Hs; [exfalso|done].
  destruct (space_table_entry _ _ _ _ _ Hrun Hs)
    as (bl & n' & vd' & _ & Hn' & Hname & Hd & Hnp & _).
  pose proof (dense_var_same g node n' vd' Hg Hnode Hn' Hvar (eq_sym Hname) Hd) as Hd'.
  apply dense_var_Var in Hd'. congruence.
Qed.

(** A name without a size is not a key of the plan. *)
Lemma plan_no_size E lc st v :
  st !! v = None → (MakeSimpleReusePlan E lc st ∅ ∅).1 !! v = None.
Proof.
  intros Hst. rewrite MakeSimpleReusePlan_plan_of. simpl.
  apply eq_None_not_Some. rewrite plan_keys, Hst.
  intros [_ [? ?]]. done.
Qed.

(** ** [CollectLifeCycle]: when it throws *)

Lemma is_break_spec node : is_break node = true ↔ produced_by_fetch node.
Proof.
  unfold is_break, produced_by_fetch. rewrite existsb_exists.
  setoid_rewrite <-list_elem_of_In. setoid_rewrite bool_decide_eq_true. done.
Qed.

Lemma forallb_nonneg_false (shape : list Z) :
  forallb (λ i, i >=? 0) shape = false ↔ ∃ d, d ∈ shape ∧ d < 0.
Proof.
  induction shape as [|d shape IH]; simpl.
  - split; [done|]. intros (d & []%elem_of_nil & _).
  - rewrite andb_false_iff, IH. setoid_rewrite elem_of_cons. split.
    + intros [Hd|(d' & ? & ?)]; [exists d; split; [by left|lia]|eauto].
    + intros (d' & [->|?] & ?); [left; lia|eauto].
Qed.

Lemma visit_var_cases step node lc :
  ((∃ lc', visit_var step node lc = Ok lc') ∧ ¬ rejects_shape node) ∨
  (visit_var step node lc = Throw NegativeShape ∧ rejects_shape node).
Proof.
  unfold visit_var, rejects_shape.
  destruct (Var node) as [vd|] eqn:HVar; cycle 1.
  { left. split; [eauto|]. by intros (vd' & ? & _). }
  destruct (Persistable vd) eqn:Hp; cycle 1.
  { left. split; [eauto|]. intros (vd' & ? & ? & _). congruence. }
  destruct (is_break node) eqn:Hb.
  { left. split; [eauto|]. intros (vd' & _ & _ & Hnf & _).
    apply Hnf. by apply is_break_spec. }
  assert (¬ produced_by_fetch node) as Hnf.
  { rewrite <-is_break_spec. congruence. }
  destruct (forallb _ (GetShape vd)) eqn:Hshape.
  - left. split; [eauto|]. intros (vd' & [= <-] & _ & _ & Hd).
    apply forallb_nonneg_false in Hd. congruence.
  - right. split; [done|]. exists vd. split_and!; [done..|].
    by apply forallb_nonneg_false.
Qed.

Lemma visit_op_cases op st :
  ((∃ st', visit_op op st = Ok st') ∧ ¬ op_rejects op) ∨
  (visit_op op st = Throw NegativeShape ∧ op_rejects op).
Proof.
  unfold visit_op, op_rejects.
  destruct (IsOp op) eqn:Hisop; simpl; cycle 1.
  { left. split; [eauto|]. by intros (? & _). }
  case_bool_decide as Hfeed; simpl.
  { left. split; [eauto|]. by intros (_ & ? & _). }
  destruct (for_each_throw_iff (visit_var st.1) rejects_shape NegativeShape
              (inputs op ++ outputs op) st.2) as [[[lc' Hok] Hno]|[Hthrow Hex]].
  - intros x t _. apply visit_var_cases.
  - left. rewrite Hok. simpl. split; [eauto|]. naive_solver.
  - right. rewrite Hthrow. done.
Qed.

Lemma CollectLifeCycle_cases F g lc0 k :
  ((∃ lc, CollectLifeCycle F g lc0 k = Ok lc) ∧
   ¬ ∃ op, op ∈ TopologyVariantSort F g k ∧ op_rejects op) ∨
  (CollectLifeCycle F g lc0 k = Throw NegativeShape ∧
   ∃ op, op ∈ TopologyVariantSort F g k ∧ op_rejects op).
Proof.
  unfold CollectLifeCycle.
  destruct (for_each_throw_iff visit_op op_rejects NegativeShape
              (TopologyVariantSort F g k) (0, lc0)) as [[[st Hok] Hno]|[Hthrow Hex]].
  - intros x t _. apply visit_op_cases.
  - left. rewrite Hok. simpl. eauto.
  - right. rewrite Hthrow. done.
Qed.

(** ** The checker of variable names *)

Lemma names_identify_variablesb_sound g :
  names_identify_variablesb g = true → names_identify_variables g.
Proof.
  unfold names_identify_variablesb. rewrite forallb_forall.
  intros H n1 n2 H1 H2 Hv1 Hv2 Hname.
  apply list_elem_of_In in H1, H2.
  specialize (H n1 H1). rewrite forallb_forall in H. specialize (H n2 H2).
  rewrite Hv1, Hv2 in H. simpl in H.
  rewrite bool_decide_eq_true_2 in H by done. simpl in H.
  by apply bool_decide_eq_true in H.
Qed.

(** ** [CollectLifeCycle]: the intervals it records *)

Lemma visit_var_intervals step node lc lc' :
  0 ≤ step ≤ INT_MAX → int_intervals lc →
  visit_var step node lc = Ok lc' → int_intervals lc'.
Proof.
  intros Hstep Hlc. unfold visit_var.
  destruct (Var node) as [vd|]; [|by intros [= <-]].
  destruct (Persistable vd).
  { destruct (is_break node); [by intros [= <-]|].
    destruct (forallb _ _); [by intros [= <-]|done]. }
  intros [= <-] v a b.
  destruct (lc !! Name node) as [[a0 b0]|] eqn:Hold;
    rewrite lookup_insert; case_decide; simpl; try apply Hlc.
  - intros [= <- <-]. destruct (Hlc _ _ _ Hold). lia.
  - intros [= <- <-]. lia.
Qed.

Lemma emplace_intervals var lc :
  int_intervals lc → int_intervals (emplace var (0, INT_MAX) lc).
Proof.
  intros Hlc. unfold emplace. destruct (lc !! var) eqn:Hold; [done|].
  intros v a b. rewrite lookup_insert. case_decide; [|apply Hlc].
  intros [= <- <-]. unfold INT_MAX. lia.
Qed.

Lemma visit_op_intervals op st st' :
  0 ≤ st.1 ≤ INT_MAX → int_intervals st.2 →
  visit_op op st = Ok st' →
  int_intervals st'.2 ∧ st.1 ≤ st'.1 ≤ st.1 + 1.
Proof.
  intros Hstep Hlc. unfold visit_op.
  destruct (IsOp op); simpl; [|intros [= <-]; split; [done|lia]].
  case_bool_decide; simpl.
  - intros [= <-]. simpl. split; [|lia].
    apply (foldl_inv _ int_intervals); [|done].
    intros x t _. apply emplace_intervals.
  - destruct (for_each _ _ _) as [lc'|] eqn:Hrun; simpl; [|done].
    intros [= <-]. simpl. split; [|lia].
    eapply (for_each_inv _ int_intervals); [|exact Hlc|exact Hrun].
    intros x t t' _. by apply visit_var_intervals.
Qed.

Lemma for_each_visit_op_intervals ops st st' :
  0 ≤ st.1 → st.1 + Z.of_nat (length ops) ≤ 2 ^ 31 → int_intervals st.2 →
  for_each visit_op ops st = Ok st' → int_intervals st'.2.
Proof.
  revert st. induction ops as [|op ops IH]; intros st H0 Hn Hlc; simpl.
  - by intros [= <-].
  - destruct (visit_op op st) as [st1|] eqn:Hop; simpl; [|done].
    simpl in Hn.
    destruct (visit_op_intervals op st st1) as [Hlc1 Hstep]; [unfold INT_MAX; lia|done..|].
    apply IH; [lia|lia|done].
Qed.

(** The traversal records intervals of non-negative [int] steps, as long
    as the step counter does not leave the range of [int]. *)
Lemma CollectLifeCycle_intervals F g k lc :
  Z.of_nat (length (TopologyVariantSort F g k)) ≤ 2 ^ 31 →
  CollectLifeCycle F g ∅ k = Ok lc → int_intervals lc.
Proof.
  intros Hn. unfold CollectLifeCycle.
  destruct (for_each _ _ _) as [st|] eqn:Hrun; simpl; [|done].
  intros [= <-]. eapply for_each_visit_op_intervals; [| | |exact Hrun]; simpl.
  - lia.
  - lia.
  - intros v a b. by rewrite lookup_empty.
Qed.

(** A candidate living from step 0 to [INT_MAX] overlaps every other one
    and is alone in its cluster. *)
Lemma maximal_interval_alone E lc st f :
  int_intervals lc →
  lc !! f = Some (0, INT_MAX) → is_Some (st !! f) →
  (MakeSimpleReusePlan E lc st ∅ ∅).1 !! f = Some f ∧
  ∀ v, (MakeSimpleReusePlan E lc st ∅ ∅).1 !! v = Some f → v = f.
Proof.
  rewrite MakeSimpleReusePlan_plan_of. simpl. intros Hlc Hf Hst.
  assert (Hov : ∀ v r lv, v ≠ f → lc !! v = Some lv →
            node2cluster (plan_of E lc st) !! v = Some r →
            node2cluster (plan_of E lc st) !! f = Some r → False).
  { intros v r [a b] Hne Hv Hvr Hfr.
    pose proof (plan_sep E lc st f v r _ _ Hfr Hvr (not_eq_sym Hne) Hf Hv) as Hno.
    destruct (Hlc _ _ _ Hv). assert (overlap (0, INT_MAX) (a, b) = true); [|congruence].
    apply overlap_spec. simpl. lia. }
  assert (Hkey : ∀ v r, node2cluster (plan_of E lc st) !! v = Some r →
                        ∃ lv, lc !! v = Some lv).
  { intros v r Hv. by destruct (proj1 (plan_keys E lc st v) (mk_is_Some _ _ Hv)) as [[lv ?] _]; eauto. }
  destruct (proj2 (plan_keys E lc st f)) as [r Hr]; [by split; eauto|].
  assert (r = f) as ->.
  { destruct (decide (r = f)) as [|Hne]; [done|exfalso].
    destruct (plan_rep E lc st f r Hr) as [Hrr _].
    destruct (Hkey _ _ Hrr) as [lr Hlr]. eauto. }
  split; [done|]. intros v Hv.
  destruct (decide (v = f)) as [|Hne]; [done|exfalso].
  destruct (Hkey _ _ Hv) as [lv Hlv]. eauto.
Qed.

(** ** [RunImpl] *)

(** [RunImpl] adds no [cluster_size] entry to the registry. *)
Lemma RunImpl_no_cluster_size E F argument registry registry' key cs :
  RunImpl E F argument registry = Ok registry' →
  registry' !! key = Some (ClusterSizeInfo cs) →
  registry !! key = Some (ClusterSizeInfo cs).
Proof.
  unfold RunImpl.
  destruct (enable_memory_optim argument); simpl; [|by intros [= <-]].
  destruct (CollectLifeCycle _ _ _ _) as [lc|]; simpl; [|done].
  destruct (CollectVarMemorySize _ _ _) as [st|]; simpl; [|done].
  destruct (MakeSimpleReusePlan E lc st ∅ ∅) as [n2c cs'].
  intros [= <-]. unfold Set_. rewrite lookup_insert. by case_decide.
Qed.

(** ** [CollectVarMemorySize]: the sizes it records *)

Lemma cast_int_shift x q : cast_int (x + q * 2 ^ 32) = cast_int x.
Proof.
  unfold cast_int. f_equal.
  replace (x + q * 2 ^ 32 + 2 ^ 31) with (x + 2 ^ 31 + q * 2 ^ 32) by lia.
  apply Z_mod_plus_full.
Qed.

Lemma cast_int_eqm x : ∃ q, cast_int x = x + q * 2 ^ 32.
Proof.
  unfold cast_int. exists (- ((x + 2 ^ 31) / 2 ^ 32)).
  rewrite Z.mod_eq by lia. lia.
Qed.

Lemma cast_int64_eqm x : ∃ q, cast_int64 x = x + q * 2 ^ 64.
Proof.
  unfold cast_int64. exists (- ((x + 2 ^ 63) / 2 ^ 64)).
  rewrite Z.mod_eq by lia. lia.
Qed.

Lemma cast_int_cast_int64 z : cast_int (cast_int64 z) = cast_int z.
Proof.
  destruct (cast_int64_eqm z) as [q ->].
  replace (z + q * 2 ^ 64) with (z + (q * 2 ^ 32) * 2 ^ 32) by lia.
  apply cast_int_shift.
Qed.

Lemma cast_int_mul_l a b : cast_int (cast_int a * b) = cast_int (a * b).
Proof.
  destruct (cast_int_eqm a) as [q ->].
  replace ((a + q * 2 ^ 32) * b) with (a * b + (q * b) * 2 ^ 32) by lia.
  apply cast_int_shift.
Qed.

(** The [int] accumulator ends as the product reduced to [int]. *)
Lemma accumulate_int_spec shape :
  accumulate_int shape = cast_int (product shape).
Proof.
  unfold accumulate_int, product.
  assert (H : ∀ acc p, acc = cast_int p →
            foldl (λ acc v, cast_int (cast_int64 (acc * v))) acc shape =
            cast_int (foldl Z.mul p shape)).
  { induction shape as [|v shape IH]; intros acc p Hacc; simpl; [done|].
    apply IH. by rewrite cast_int_cast_int64, Hacc, cast_int_mul_l. }
  by apply H.
Qed.

(** Within the range of [int] for the element count and of [size_t] for
    the byte count, the recorded size is the product of the dimensions,
    dynamic ones counted as 1, times the width of the element type. *)
Lemma var_size_in_range F vd :
  0 ≤ product (placeholder <$> GetShape vd) < 2 ^ 31 →
  0 ≤ product (placeholder <$> GetShape vd) * SizeOfType F (GetDataType vd) < 2 ^ 64 →
  var_size F vd =
  product (placeholder <$> GetShape vd) * SizeOfType F (GetDataType vd).
Proof.
  intros Hp Hb. unfold var_size. fold placeholder.
  rewrite accumulate_int_spec.
  assert (cast_int (product (placeholder <$> GetShape vd)) =
          product (placeholder <$> GetShape vd)) as ->.
  { unfold cast_int. rewrite Z.mod_small; lia. }
  unfold cast_size_t. rewrite (Z.mod_small (product _)) by lia.
  by rewrite Z.mod_small.
Qed.

Lemma collect_size_complete F bl nodes st0 node vd :
  dense_var node = Some vd → Persistable vd = false → Name node ∉ bl →
  (∀ n' vd', n' ∈ nodes → Name n' = Name node → dense_var n' = Some vd' → vd' = vd) →
  node ∈ nodes ∨ st0 !! Name node = Some (var_size F vd) →
  foldl (λ tbl n, collect_size F bl n tbl) st0 nodes !! Name node =
  Some (var_size F vd).
Proof.
  intros Hd Hp Hbl. revert st0.
  induction nodes as [|n nodes IH]; intros st0 Hsame Hstart; simpl.
  - destruct Hstart as [[]%elem_of_nil|]; done.
  - apply IH; [intros n' vd' Hn'; apply Hsame; by right|].
    destruct Hstart as [[->|Hin]%elem_of_cons|Hst0]; [|by left|]; right.
    + unfold collect_size. rewrite Hd, bool_decide_eq_false_2, Hp by done.
      apply lookup_insert_eq.
    + unfold collect_size.
      destruct (dense_var n) as [vd'|] eqn:Hdn; [|done].
      case_bool_decide; [done|]. destruct (Persistable vd'); [done|].
      rewrite lookup_insert. case_decide as Hname; [|done].
      by rewrite (Hsame n vd') by (done || by left).
Qed.

(** X13.  The size table within the integer ranges: a dense-tensor variable
    that is neither persistent nor touched by an operator of the black
    list is recorded with the product of its dimensions, dynamic ones
    counted as 1, times the width of its element type. *)
Lemma size_table_within_range F g st node vd :
  names_identify_variables g →
  CollectVarMemorySize F g ∅ = Ok st →
  node ∈ Nodes g → dense_var node = Some vd → Persistable vd = false →
  (∀ n' op, n' ∈ Nodes g → Name n' = Name node →
            op ∈ inputs n' ++ outputs n' → Name op ∉ invalid_op) →
  0 ≤ product (placeholder <$> GetShape vd) < 2 ^ 31 →
  0 ≤ product (placeholder <$> GetShape vd) * SizeOfType F (GetDataType vd) < 2 ^ 64 →
  st !! Name node =
  Some (product (placeholder <$> GetShape vd) * SizeOfType F (GetDataType vd)).
Proof.
  intros Hg Hrun Hnode Hd Hp Hclean Hr1 Hr2.
  rewrite <-var_size_in_range by done.
  unfold CollectVarMemorySize in Hrun.
  destruct (for_each collect_black (Nodes g) ∅) as [bl|] eqn:Hbl; simpl in Hrun; [|done].
  injection Hrun as <-.
  apply collect_size_complete; [done|done| | |by left].
  - intros Hin. apply (collect_black_spec _ _ _ _ Hbl) in Hin
      as [[]%elem_of_empty|(n' & Hn' & Hname & _ & Hv)].
    destruct (valid_var_false _ Hv) as (op & Hop & Hbad).
    by apply (Hclean n' op).
  - intros n' vd' Hn' Hname Hd'.
    pose proof (dense_var_same g node n' vd' Hg Hnode Hn'
                  (dense_var_IsVar _ _ Hd) (eq_sym Hname) Hd').
    congruence.
Qed.

(** ** The representatives of the plan *)

(** X2.  The plan's representatives, for every input.  Every representative
    is mapped to itself; [cluster_size] has an entry exactly for the
    representatives; the representative is at least as large as every
    member of its cluster, and [cluster_size] records its size converted
    to [int]: that is the size itself, hence at least the size of every
    member, whenever the representative's size is below [2^31]. *)
Theorem representatives_and_cluster_sizes E lc st :
  (∀ v r, (MakeSimpleReusePlan E lc st ∅ ∅).1 !! v = Some r →
          (MakeSimpleReusePlan E lc st ∅ ∅).1 !! r = Some r) ∧
  (∀ r, is_Some ((MakeSimpleReusePlan E lc st ∅ ∅).2 !! r) ↔
        ∃ v, (MakeSimpleReusePlan E lc st ∅ ∅).1 !! v = Some r) ∧
  (∀ v r, (MakeSimpleReusePlan E lc st ∅ ∅).1 !! v = Some r →
          ∃ sv sr, st !! v = Some sv ∧ st !! r = Some sr ∧ sv ≤ sr ∧
                   (MakeSimpleReusePlan E lc st ∅ ∅).2 !! r = Some (cast_int sr)) ∧
  (∀ v r sv sr, (MakeSimpleReusePlan E lc st ∅ ∅).1 !! v = Some r →
                st !! v = Some sv → st !! r = Some sr → 0 ≤ sr < 2 ^ 31 →
                (MakeSimpleReusePlan E lc st ∅ ∅).2 !! r = Some sr ∧ sv ≤ sr).
Proof.
  rewrite MakeSimpleReusePlan_plan_of. simpl. split_and!.
  - intros v r Hr. by apply plan_rep in Hr as [? _].
  - intros r. split.
    + intros [s Hs]. exists r. by eapply plan_cs.
    + intros [v Hv]. apply plan_rep in Hv as (_ & sv & sr & _ & _ & _ & ->). eauto.
  - intros v r Hr. apply plan_rep in Hr as (_ & sv & sr & ?). by exists sv, sr.
  - intros v r sv sr Hr Hsv Hsr Hrange.
    apply plan_rep in Hr as (_ & sv' & sr' & Hsv' & Hsr' & Hle & Hcs).
    simplify_eq. split; [|done]. rewrite Hcs. f_equal.
    unfold cast_int. rewrite Z.mod_small; lia.
Qed.

(** * The concrete inputs, evaluated *)

Lemma distinct_sizes_9 : distinct_sizes lc9 st9.
Proof. unfold distinct_sizes. refine (bool_decide_unpack _ _). vm_compute. exact I. Defined.

Lemma graph1_names : names_identify_variables graph1.
Proof. apply names_identify_variablesb_sound. vm_compute. reflexivity. Defined.

Lemma CollectLifeCycle_graph1 : CollectLifeCycle fwA graph1 ∅ 0 = Ok lifecycles1.
Proof. vm_compute. reflexivity. Defined.

Lemma CollectVarMemorySize_graph1 :
  CollectVarMemorySize fwA graph1 ∅ = Ok space_table1.
Proof. vm_compute. reflexivity. Defined.

(** * The claims of the specification *)

(** C1.  In the plan produced into empty output maps, two distinct
    candidates whose lifecycle intervals overlap (closed-interval rule)
    are never mapped to the same representative. *)
Theorem overlapping_candidates_separated E lc st u v lu lv ru rv :
  u ≠ v →
  lc !! u = Some lu → lc !! v = Some lv →
  overlap lu lv = true →
  (MakeSimpleReusePlan E lc st ∅ ∅).1 !! u = Some ru →
  (MakeSimpleReusePlan E lc st ∅ ∅).1 !! v = Some rv →
  ru ≠ rv.
Proof.
  rewrite MakeSimpleReusePlan_plan_of. simpl.
  intros Hne Hlu Hlv Hov Hu Hv ->.
  pose proof (plan_sep E lc st u v rv lu lv Hu Hv Hne Hlu Hlv). congruence.
Qed.

Lemma overlapping_candidates_separated_witness :
  lc9 !! "A" = Some (0, 2) ∧ lc9 !! "C" = Some (1, 4) ∧ ("A" : string) ≠ "C".
Proof.
  split_and!; [reflexivity..|].
  apply (overlapping_candidates_separated libA lc9 st9 "A" "C" (0, 2) (1, 4) "A" "C");
    [discriminate | reflexivity | reflexivity | reflexivity
    | vm_compute; reflexivity | vm_compute; reflexivity].
Defined.

(** C2, at a representative of [2^31] bytes.  The sizes are [size_t] in
    the size table and in [MemNode]; [cluster_size] takes them through
    [static_cast<int>]: the representative A is recorded with
    [-2147483648], below the size of its member B (and below its own),
    where the claim has [cluster_size[node2cluster[v]] >= size[v]]. *)
Theorem cluster_size_below_member_size :
  (MakeSimpleReusePlan libA lc2 st2 ∅ ∅).1 !! "B" = Some "A" ∧
  st2 !! "B" = Some 5 ∧
  (MakeSimpleReusePlan libA lc2 st2 ∅ ∅).2 !! "A" = Some (-2147483648) ∧
  ¬ (∀ v r sv c,
       (MakeSimpleReusePlan libA lc2 st2 ∅ ∅).1 !! v = Some r →
       st2 !! v = Some sv →
       (MakeSimpleReusePlan libA lc2 st2 ∅ ∅).2 !! r = Some c →
       c >= sv).
Proof.
  assert (H1 : (MakeSimpleReusePlan libA lc2 st2 ∅ ∅).1 !! "B" = Some "A")
    by (vm_compute; reflexivity).
  assert (H2 : (MakeSimpleReusePlan libA lc2 st2 ∅ ∅).2 !! "A" = Some (-2147483648))
    by (vm_compute; reflexivity).
  split_and!; [done|reflexivity|done|].
  intros H. specialize (H "B" "A" 5 (-2147483648) H1 eq_refl H2). lia.
Qed.

(** C3 (as the code has it).  A persistent variable has no entry in the
    size table and is no key of [node2cluster]. *)
Theorem persistent_variables_not_planned E F g st lc node vd :
  names_identify_variables g →
  CollectVarMemorySize F g ∅ = Ok st →
  node ∈ Nodes g → IsVar node = true →
  Var node = Some vd → Persistable vd = true →
  st !! Name node = None ∧
  (MakeSimpleReusePlan E lc st ∅ ∅).1 !! Name node = None.
Proof.
  intros Hg Hrun Hnode Hvar HVar Hp.
  assert (st !! Name node = None) by eauto using persistent_no_size.
  split; [done|]. by apply plan_no_size.
Qed.

Lemma persistent_variables_not_planned_witness :
  space_table1 !! "W" = None ∧
  (MakeSimpleReusePlan libA lifecycles1 space_table1 ∅ ∅).1 !! "W" = None.
Proof.
  apply (persistent_variables_not_planned libA fwA graph1 space_table1 lifecycles1
           var_W (mkVarDesc true VarType_Type_LOD_TENSOR [3; 8] 5)).
  - exact graph1_names.
  - exact CollectVarMemorySize_graph1.
  - unfold graph1. simpl. do 2 right. left.
  - reflexivity.
  - reflexivity.
  - reflexivity.
Defined.

(** The claim C3 as worded fails for feed outputs: [X], the output of the
    operator "feed" of [graph1], is a key of the published
    [node2cluster]. *)
Lemma feed_output_is_planned :
  var_X ∈ outputs op_feed ∧ Name op_feed = "feed" ∧ op_feed ∈ Nodes graph1 ∧
  ∃ n2c, RunImpl libA fwA argument1 ∅ =
           Ok (<[(7, "memory_optimize_pass") := Node2ClusterInfo n2c]> ∅) ∧
         n2c !! Name var_X = Some "X".
Proof.
  split_and!; [by left|done|by left|].
  exists (<["X" := "X"]> (<["Y" := "Y"]> (<["Z" := "Z"]> (<["V" := "Y"]> ∅)))).
  split; vm_compute; reflexivity.
Qed.

(** C4 (as the code has it).  The vector is sorted by size, descending,
    and by nothing else; when the candidate sizes are pairwise distinct
    the plan does not depend on the iteration order of the map or on the
    sort: every two standard libraries give the same pair of maps. *)
Theorem plan_deterministic_for_distinct_sizes E1 E2 lc st :
  distinct_sizes lc st →
  StronglySorted (λ a b, MemNode.size b ≤ MemNode.size a) (sorted_nodes E1 lc st) ∧
  (∀ a b, MemNode.size a = MemNode.size b → sort_func a b = false) ∧
  MakeSimpleReusePlan E1 lc st ∅ ∅ = MakeSimpleReusePlan E2 lc st ∅ ∅.
Proof.
  intros Hd. split_and!.
  - apply sorted_nodes_sorted.
  - intros a b Heq. unfold sort_func. lia.
  - by apply plan_unique.
Qed.

Lemma plan_deterministic_for_distinct_sizes_witness :
  MakeSimpleReusePlan libA lc9 st9 ∅ ∅ = MakeSimpleReusePlan libB lc9 st9 ∅ ∅.
Proof.
  apply (plan_deterministic_for_distinct_sizes libA libB lc9 st9).
  unfold distinct_sizes. refine (bool_decide_unpack _ _). vm_compute. exact I.
Defined.

(** The claim C4 as worded fails: [sort_func] does not order two nodes of
    equal size by name, and on three candidates of one size two standard
    libraries, both within the C++ contract, return different plans. *)
Lemma equal_sizes_plan_depends_on_order :
  sort_func (MemNode.mk "X" 10 (-1) (0, 1) ∅) (MemNode.mk "Y" 10 (-1) (2, 3) ∅) = false ∧
  sort_func (MemNode.mk "Y" 10 (-1) (2, 3) ∅) (MemNode.mk "X" 10 (-1) (0, 1) ∅) = false ∧
  (MakeSimpleReusePlan libA lc4 st4 ∅ ∅).1 !! "Y" = Some "X" ∧
  (MakeSimpleReusePlan libB lc4 st4 ∅ ∅).1 !! "Y" = Some "Y" ∧
  (MakeSimpleReusePlan libA lc4 st4 ∅ ∅).1 ≠ (MakeSimpleReusePlan libB lc4 st4 ∅ ∅).1.
Proof.
  assert (HA : (MakeSimpleReusePlan libA lc4 st4 ∅ ∅).1 !! "Y" = Some "X")
    by (vm_compute; reflexivity).
  assert (HB : (MakeSimpleReusePlan libB lc4 st4 ∅ ∅).1 !! "Y" = Some "Y")
    by (vm_compute; reflexivity).
  split_and!; [reflexivity|reflexivity|done|done|].
  intros Heq. rewrite Heq in HA. congruence.
Qed.

(** C5 (as the code has it).  With the flag unset [RunImpl] returns the
    registry it was given, whatever the graph; with the flag set and both
    collectors returning, it calls [Set] once, which leaves
    [node2cluster] under the key
    [(root_predictor_id, "memory_optimize_pass")]; the registry never
    gains a [cluster_size] entry. *)
Theorem RunImpl_registry E F argument registry :
  (enable_memory_optim argument = false →
   RunImpl E F argument registry = Ok registry) ∧
  (enable_memory_optim argument = true →
   ∀ lc st,
     CollectLifeCycle F (main_graph_ptr argument) ∅ 0 = Ok lc →
     CollectVarMemorySize F (main_graph_ptr argument) ∅ = Ok st →
     ∃ registry',
       RunImpl E F argument registry = Ok registry' ∧
       registry' =
         Set_ (root_predictor_id argument) "memory_optimize_pass"
              (Node2ClusterInfo (MakeSimpleReusePlan E lc st ∅ ∅).1) registry ∧
       registry' !! (root_predictor_id argument, "memory_optimize_pass") =
         Some (Node2ClusterInfo (MakeSimpleReusePlan E lc st ∅ ∅).1) ∧
       ∀ key, key ≠ (root_predictor_id argument, "memory_optimize_pass") →
              registry' !! key = registry !! key) ∧
  (∀ registry' key cs,
     RunImpl E F argument registry = Ok registry' →
     registry' !! key = Some (ClusterSizeInfo cs) →
     registry !! key = Some (ClusterSizeInfo cs)).
Proof.
  split_and!.
  - unfold RunImpl. by intros ->.
  - intros Hflag lc st Hlc Hst. eexists. split_and!.
    + unfold RunImpl. rewrite Hflag, Hlc, Hst. simpl.
      by destruct (MakeSimpleReusePlan E lc st ∅ ∅).
    + done.
    + unfold Set_. apply lookup_insert_eq.
    + intros key Hkey. unfold Set_. by rewrite lookup_insert_ne.
  - intros registry' key cs. apply RunImpl_no_cluster_size.
Qed.

(** The claim C5 as worded fails for [cluster_size]: after the run on
    [graph1] the registry holds the single entry of [node2cluster]; the
    cluster sizes the planner computed are in no entry. *)
Lemma cluster_size_not_published :
  (MakeSimpleReusePlan libA lifecycles1 space_table1 ∅ ∅).2 =
    <["Y" := 32]> (<["Z" := 16]> (<["X" := 12]> ∅)) ∧
  RunImpl libA fwA argument1 ∅ =
    Ok (<[(7, "memory_optimize_pass") :=
            Node2ClusterInfo (<["X" := "X"]> (<["Y" := "Y"]> (<["Z" := "Z"]>
                                (<["V" := "Y"]> ∅))))]> ∅) ∧
  ¬ ∃ registry' key cs,
      RunImpl libA fwA argument1 ∅ = Ok registry' ∧
      registry' !! key = Some (ClusterSizeInfo cs).
Proof.
  split_and!; [vm_compute; reflexivity..|].
  intros (registry' & key & cs & Hrun & Hkey).
  pose proof (RunImpl_no_cluster_size _ _ _ _ _ _ _ Hrun Hkey) as H.
  by rewrite lookup_empty in H.
Qed.

(** C6, at a tensor of [2^31] elements.  The dynamic batch dimension is
    counted as 1, yet the element count [2048 * 1024 * 1024] leaves the
    [int] accumulator as [-2^31], and the size recorded for [T] is not
    the product of the dimensions times the width, 8589934592. *)
Theorem size_of_large_tensor_wraps :
  dense_var var_T = Some (mkVarDesc false VarType_Type_LOD_TENSOR [-1; 2048; 1024; 1024] 5) ∧
  product (placeholder <$> [-1; 2048; 1024; 1024]) * SizeOfType fwA 5 = 8589934592 ∧
  accumulate_int (placeholder <$> [-1; 2048; 1024; 1024]) = -2147483648 ∧
  CollectVarMemorySize fwA graph_big ∅ = Ok (<["T" := 18446744065119617024]> ∅).
Proof. split_and!; vm_compute; reflexivity. Qed.

(** C7.  A variable touched, as input or output, by an operator whose type
    is in the black list has no entry in the size table and is no key of
    [node2cluster], whatever the lifecycles. *)
Theorem blacklisted_variables_not_planned E F g st node op :
  names_identify_variables g →
  CollectVarMemorySize F g ∅ = Ok st →
  node ∈ Nodes g → IsVar node = true →
  op ∈ inputs node ++ outputs node → Name op ∈ invalid_op →
  st !! Name node = None ∧
  ∀ lc, (MakeSimpleReusePlan E lc st ∅ ∅).1 !! Name node = None.
Proof.
  intros Hg Hrun Hnode Hvar Hop Hbad.
  assert (st !! Name node = None) by eauto using blacklisted_no_size.
  split; [done|]. intros lc. by apply plan_no_size.
Qed.

Lemma blacklisted_variables_not_planned_witness :
  space_table1 !! "U" = None ∧
  ∀ lc, (MakeSimpleReusePlan libA lc space_table1 ∅ ∅).1 !! "U" = None.
Proof.
  apply (blacklisted_variables_not_planned libA fwA graph1 space_table1
           var_U (op_ref "fetch")).
  - exact graph1_names.
  - exact CollectVarMemorySize_graph1.
  - unfold graph1. simpl. do 10 right. left.
  - reflexivity.
  - simpl. right. left.
  - unfold invalid_op. simpl. do 10 right. left.
Defined.

(** C8 (as the code has it).  [CollectLifeCycle] throws the shape error
    exactly when the traversal holds an operator other than "feed" that
    references a persistent variable with a negative dimension of which
    no producer is an operator named "fetch"; otherwise it returns. *)
Theorem shape_validation_error F g lc0 k :
  (CollectLifeCycle F g lc0 k = Throw NegativeShape ↔
   ∃ op node vd d,
     op ∈ TopologyVariantSort F g k ∧ IsOp op = true ∧ Name op ≠ "feed" ∧
     node ∈ inputs op ++ outputs op ∧
     Var node = Some vd ∧ Persistable vd = true ∧
     (∀ p, p ∈ inputs node → Name p ≠ "fetch") ∧
     d ∈ GetShape vd ∧ d < 0) ∧
  ((∃ lc, CollectLifeCycle F g lc0 k = Ok lc) ↔
   CollectLifeCycle F g lc0 k ≠ Throw NegativeShape).
Proof.
  assert (Hiff : (∃ op, op ∈ TopologyVariantSort F g k ∧ op_rejects op) ↔
                 ∃ op node vd d,
                   op ∈ TopologyVariantSort F g k ∧ IsOp op = true ∧
                   Name op ≠ "feed" ∧ node ∈ inputs op ++ outputs op ∧
                   Var node = Some vd ∧ Persistable vd = true ∧
                   (∀ p, p ∈ inputs node → Name p ≠ "fetch") ∧
                   d ∈ GetShape vd ∧ d < 0).
  { unfold op_rejects, rejects_shape, produced_by_fetch. split.
    - intros (op & ? & ? & ? & node & ? & vd & ? & ? & Hnf & d & ? & ?).
      exists op, node, vd, d. split_and!; [done..| |done|done].
      intros p Hp Hname. apply Hnf. eauto.
    - intros (op & node & vd & d & ? & ? & ? & ? & ? & ? & Hnf & ? & ?).
      exists op. split_and!; [done..|]. exists node. split; [done|].
      exists vd. split_and!; [done..| |eauto].
      intros (p & Hp & Hname). by apply (Hnf p). }
  rewrite <-Hiff.
  destruct (CollectLifeCycle_cases F g lc0 k) as [[[lc Hok] Hno]|[Hthrow Hex]].
  - rewrite Hok. split; split; try done; eauto.
  - rewrite Hthrow. split; split; try done. by intros [lc ?].
Qed.

(** The claim C8 as worded fails: in [graph_fetch] the only persistent
    variable with a negative dimension is consumed solely by "fetch", so
    that the worded condition asks for no error; the code throws, because
    its exception looks at the producers of the variable. *)
Lemma fetch_consumer_still_rejected :
  CollectLifeCycle fwA graph_fetch ∅ 0 = Throw NegativeShape ∧
  ¬ ∃ op node vd d,
      op ∈ TopologyVariantSort fwA graph_fetch 0 ∧ IsOp op = true ∧
      Name op ≠ "feed" ∧ node ∈ inputs op ++ outputs op ∧
      Var node = Some vd ∧ Persistable vd = true ∧
      ¬ spec_solely_consumed_by_fetch node ∧
      d ∈ GetShape vd ∧ d < 0.
Proof.
  split; [vm_compute; reflexivity|].
  intros (op & node & vd & d & Hop & _ & _ & Hnode & HVar & _ & Hnot & Hd & Hneg).
  change (TopologyVariantSort fwA graph_fetch 0) with [op_fetch_P] in Hop.
  apply list_elem_of_singleton in Hop as ->. simpl in Hnode.
  apply elem_of_cons in Hnode as [->|Hnode].
  - apply Hnot. split; [done|]. intros c Hc. simpl in Hc.
    by apply list_elem_of_singleton in Hc as ->.
  - apply list_elem_of_singleton in Hnode as ->. simpl in HVar.
    injection HVar as <-. simpl in Hd. by apply elem_of_nil in Hd.
Qed.

(** C9.  On the worked scenario, under every standard library, the
    vector is sorted A, C, B with the conflicts A-C and B-C, and the plan
    is [{A -> A, B -> A, C -> C}] with cluster sizes [{A: 100, C: 80}]. *)
Theorem worked_scenario E :
  sorted_nodes E lc9 st9 =
    [MemNode.mk "A" 100 (-1) (0, 2) {["C"]};
     MemNode.mk "C" 80 (-1) (1, 4) {["A"; "B"]};
     MemNode.mk "B" 50 (-1) (3, 5) {["C"]}] ∧
  MakeSimpleReusePlan E lc9 st9 ∅ ∅ =
    (<["A" := "A"]> (<["B" := "A"]> (<["C" := "C"]> ∅)),
     <["A" := 100]> (<["C" := 80]> ∅)).
Proof.
  rewrite (sorted_nodes_unique E libA) by apply distinct_sizes_9.
  rewrite (plan_unique E libA) by apply distinct_sizes_9.
  split; vm_compute; reflexivity.
Qed.

(** C10.  A candidate whose recorded interval is the one of the feed
    branch, [(0, INT_MAX)], is mapped to itself and no other candidate is
    mapped to it, for the lifecycles of every traversal whose step counter
    stays within [int]. *)
Theorem feed_interval_candidate_alone E F g k lc st f :
  Z.of_nat (length (TopologyVariantSort F g k)) ≤ 2 ^ 31 →
  CollectLifeCycle F g ∅ k = Ok lc →
  lc !! f = Some (0, INT_MAX) → is_Some (st !! f) →
  (MakeSimpleReusePlan E lc st ∅ ∅).1 !! f = Some f ∧
  ∀ v, (MakeSimpleReusePlan E lc st ∅ ∅).1 !! v = Some f → v = f.
Proof.
  intros Hn Hrun. apply maximal_interval_alone.
  by eapply CollectLifeCycle_intervals.
Qed.

Lemma feed_interval_candidate_alone_witness :
  (MakeSimpleReusePlan libA lifecycles1 space_table1 ∅ ∅).1 !! "X" = Some "X" ∧
  ∀ v, (MakeSimpleReusePlan libA lifecycles1 space_table1 ∅ ∅).1 !! v = Some "X" →
       v = "X".
Proof.
  apply (feed_interval_candidate_alone libA fwA graph1 0 lifecycles1 space_table1 "X").
  - vm_compute. discriminate.
  - exact CollectLifeCycle_graph1.
  - vm_compute. reflexivity.
  - exists 12. vm_compute. reflexivity.
Defined.

(** * Further properties of the code *)

(** ** More on [MakeSimpleReusePlan] *)

(** X1.  The keys of [node2cluster] are exactly the keys the lifecycle
    map and the size table have in common. *)
Theorem plan_keys_are_common_keys E lc st :
  dom (MakeSimpleReusePlan E lc st ∅ ∅).1 = dom lc ∩ dom st.
Proof.
  rewrite MakeSimpleReusePlan_plan_of. simpl. apply set_eq. intros u.
  rewrite elem_of_intersection, !elem_of_dom. apply plan_keys.
Qed.

(** X3.  A candidate strictly larger than every other candidate is its
    own representative. *)
Theorem largest_candidate_is_representative E lc st u su :
  is_Some (lc !! u) → st !! u = Some su →
  (∀ v sv, v ≠ u → is_Some (lc !! v) → st !! v = Some sv → sv < su) →
  (MakeSimpleReusePlan E lc st ∅ ∅).1 !! u = Some u.
Proof.
  rewrite MakeSimpleReusePlan_plan_of. simpl. intros Hlc Hst Hmax.
  destruct (proj2 (plan_keys E lc st u)) as [r Hr]; [by split; eauto|].
  destruct (decide (r = u)) as [->|Hne]; [done|exfalso].
  destruct (plan_rep E lc st u r Hr) as (Hrr & su' & sr & Hsu & Hsr & Hle & _).
  destruct (proj1 (plan_keys E lc st r) (mk_is_Some _ _ Hrr)) as [Hlr _].
  pose proof (Hmax r sr Hne Hlr Hsr). simplify_eq. lia.
Qed.

Lemma names_insert_set_cluster (cur : list MemNode.t) j c nj :
  cur !! j = Some nj →
  MemNode.name <$> <[j := MemNode.set_cluster c nj]> cur = MemNode.name <$> cur.
Proof.
  intros Hj. rewrite list_fmap_insert. simpl.
  apply list_insert_id. by rewrite list_lookup_fmap, Hj.
Qed.

Lemma admit_node_frame names k n2c0 cs0 root cidx j st :
  k ∉ names →
  frame_inv names k n2c0 cs0 st.1 →
  frame_inv names k n2c0 cs0 (admit_node root cidx j st).1.
Proof.
  intros Hk (Hnames & Hn & Hc). unfold admit_node.
  destruct (mem_nodes st.1 !! j) as [nj|] eqn:Hj; [|done].
  destruct (_ && _); [|done]. simpl. split_and!; simpl; [| |done].
  - by rewrite names_insert_set_cluster.
  - rewrite lookup_insert_ne; [done|].
    intros <-. apply Hk. rewrite <-Hnames.
    apply list_elem_of_fmap. exists nj. split; [done|]. by eapply list_elem_of_lookup_2.
Qed.

Lemma open_cluster_frame names k n2c0 cs0 i p :
  k ∉ names →
  frame_inv names k n2c0 cs0 p →
  frame_inv names k n2c0 cs0 (open_cluster i p).
Proof.
  intros Hk Hinv. unfold open_cluster.
  destruct (mem_nodes p !! i) as [ni|] eqn:Hi; [|done].
  destruct (_ >=? _); [done|].
  set (q := mkPlan _ _ _).
  destruct (decide (S i ≤ length (mem_nodes p))%nat) as [Hle|Hgt]; cycle 1.
  { rewrite for_range_empty by lia. simpl. destruct Hinv as (Hnames & Hn & Hc).
    assert (MemNode.name ni ≠ k).
    { intros <-. apply Hk. rewrite <-Hnames. apply list_elem_of_fmap.
      exists ni. split; [done|]. by eapply list_elem_of_lookup_2. }
    split_and!; simpl.
    - by rewrite names_insert_set_cluster.
    - by rewrite lookup_insert_ne.
    - by rewrite lookup_insert_ne. }
  apply (for_range_ind (λ _ st, frame_inv names k n2c0 cs0 st.1)); [done| |].
  - simpl. destruct Hinv as (Hnames & Hn & Hc).
    assert (MemNode.name ni ≠ k).
    { intros <-. apply Hk. rewrite <-Hnames. apply list_elem_of_fmap.
      exists ni. split; [done|]. by eapply list_elem_of_lookup_2. }
    split_and!; simpl.
    + by rewrite names_insert_set_cluster.
    + by rewrite lookup_insert_ne.
    + by rewrite lookup_insert_ne.
  - intros j st _. by apply admit_node_frame.
Qed.

Lemma greedy_frame l n2c0 cs0 k :
  k ∉ MemNode.name <$> l →
  frame_inv (MemNode.name <$> l) k n2c0 cs0 (greedy (mkPlan l n2c0 cs0)).
Proof.
  intros Hk. unfold greedy. simpl.
  apply (for_range_ind (λ _ p, frame_inv (MemNode.name <$> l) k n2c0 cs0 p)); [lia|done|].
  intros i p _. by apply open_cluster_frame.
Qed.

(** X4.  Entries of the incoming output maps under a key that is not a
    candidate are returned unchanged. *)
Theorem MakeSimpleReusePlan_frame E lc st n2c0 cs0 k :
  lc !! k = None ∨ st !! k = None →
  (MakeSimpleReusePlan E lc st n2c0 cs0).1 !! k = n2c0 !! k ∧
  (MakeSimpleReusePlan E lc st n2c0 cs0).2 !! k = cs0 !! k.
Proof.
  intros Hk. unfold MakeSimpleReusePlan. simpl.
  fold (sorted_nodes E lc st).
  destruct (greedy_frame (sorted_nodes E lc st) n2c0 cs0 k) as (_ & ? & ?); [|done].
  intros (n & -> & Hn)%list_elem_of_fmap.
  apply sorted_nodes_lookup in Hn as [Hl Hs]. destruct Hk; congruence.
Qed.

Lemma greedy_max_equiv l done done' p :
  (∀ kr ku, (kr < ku < length l)%nat → done' kr ku → done kr ku) →
  greedy_max l done p → greedy_max l done' p.
Proof.
  intros Himp [H1 H2]. split; [done|].
  intros kr ku nr nu Hkr Hku Hlt Hd. apply H2; [done..|].
  apply Himp; [|done]. apply lookup_lt_Some in Hku. lia.
Qed.

(** Mapping a node that was not mapped keeps [greedy_max]. *)
Lemma greedy_max_insert l done p j nj c cidx root :
  NoDup (MemNode.name <$> l) →
  l !! j = Some nj →
  mem_nodes p !! j = Some (MemNode.set_cluster c nj) → c < 0 → 0 ≤ cidx →
  root ≠ MemNode.name nj ∨ (∀ kr ku, done kr ku → kr ≠ j) →
  greedy_max l done p →
  ∀ cs',
  greedy_max l done
    (mkPlan (<[j := MemNode.set_cluster cidx (MemNode.set_cluster c nj)]> (mem_nodes p))
            (<[MemNode.name nj := root]> (node2cluster p)) cs').
Proof.
  intros Hnd Hj Hcur Hneg Hpos Hroot [H1 H2] cs'.
  pose proof (H1 j nj c Hj Hcur Hneg) as Hnone.
  assert (Hother : ∀ k nk, l !! k = Some nk → k ≠ j →
                           MemNode.name nk ≠ MemNode.name nj).
  { intros k nk Hk Hkj Heq. apply Hkj. eauto using wf_lookup_inj. }
  assert (Hmapped : ∀ k nk r, l !! k = Some nk →
            node2cluster p !! MemNode.name nk = Some r →
            MemNode.name nj ≠ MemNode.name nk).
  { intros k nk r Hk Hr Heq. rewrite <-Heq in Hr. congruence. }
  split; simpl.
  - intros k nk c' Hk. destruct (decide (k = j)) as [->|Hkj].
    + rewrite list_lookup_insert_eq by (by eapply lookup_lt_Some).
      intros [= Hc'] ?. simplify_eq. simpl in *. lia.
    + rewrite list_lookup_insert_ne by done. intros Hck Hc'.
      rewrite lookup_insert_ne by (apply not_eq_sym; eauto). eauto.
  - intros kr ku nr nu Hkr Hku Hlt Hd. rewrite lookup_insert.
    case_decide as Hr.
    { intros [= Hroot']. exfalso. destruct Hroot as [Hroot|Hroot].
      - congruence.
      - apply (Hroot kr ku Hd). eauto using wf_lookup_inj. }
    intros Hrr. destruct (H2 kr ku nr nu Hkr Hku Hlt Hd Hrr)
      as [(kr' & nr' & ? & ? & Hm)|(km & nm & ? & ? & Hm & ?)].
    + left. exists kr', nr'. split_and!; [done..|].
      rewrite lookup_insert_ne; [done|]. eauto.
    + right. exists km, nm. split_and!; [done..| |done].
      rewrite lookup_insert_ne; [done|]. eauto.
Qed.

Lemma greedy_max_add l done extra p :
  greedy_max l done p →
  (∀ kr ku nr nu, l !! kr = Some nr → l !! ku = Some nu → (kr < ku)%nat →
     extra kr ku →
     node2cluster p !! MemNode.name nr = Some (MemNode.name nr) →
     (∃ kr' nr', (kr' ≤ kr)%nat ∧ l !! kr' = Some nr' ∧
                 node2cluster p !! MemNode.name nu = Some (MemNode.name nr')) ∨
     (∃ km nm, (km < ku)%nat ∧ l !! km = Some nm ∧
               node2cluster p !! MemNode.name nm = Some (MemNode.name nr) ∧
               MemNode.name nu ∈ MemNode.adj nm)) →
  greedy_max l (λ kr ku, done kr ku ∨ extra kr ku) p.
Proof.
  intros [H1 H2] Hnew. split; [done|].
  intros kr ku nr nu Hkr Hku Hlt [Hd|Hd]; [by apply H2|by apply Hnew].
Qed.

Lemma greedy_max_extend l done p i j :
  greedy_max l done p →
  (∀ ni nj, l !! i = Some ni → l !! j = Some nj → (i < j)%nat →
     node2cluster p !! MemNode.name ni = Some (MemNode.name ni) →
     (∃ kr' nr', (kr' ≤ i)%nat ∧ l !! kr' = Some nr' ∧
                 node2cluster p !! MemNode.name nj = Some (MemNode.name nr')) ∨
     (∃ km nm, (km < j)%nat ∧ l !! km = Some nm ∧
               node2cluster p !! MemNode.name nm = Some (MemNode.name ni) ∧
               MemNode.name nj ∈ MemNode.adj nm)) →
  greedy_max l (λ kr ku, done kr ku ∨ (kr = i ∧ ku = j)) p.
Proof.
  intros HM Hnew. apply greedy_max_add; [done|].
  intros kr ku nr nu Hkr Hku Hlt [-> ->]. by apply Hnew.
Qed.

Lemma admit_node_max l i ni cidx j st :
  well_formed l →
  l !! i = Some ni → (i < j)%nat → 0 ≤ cidx →
  inner_inv l i ni st →
  greedy_max l (λ kr ku, kr < i ∨ (kr = i ∧ ku < j))%nat st.1 →
  covered l ni j st →
  greedy_max l (λ kr ku, kr < i ∨ (kr = i ∧ ku < S j))%nat
             (admit_node (MemNode.name ni) cidx j st).1 ∧
  covered l ni (S j) (admit_node (MemNode.name ni) cidx j st).
Proof.
  intros Hwf Hi Hij Hpos (HG & Hroot & _ & _) HM Hcov.
  pose proof Hwf as (Hnd & _ & _).
  assert (Hcov' : covered l ni (S j) st).
  { intros x Hx. destruct (Hcov x Hx) as (km & nm & ? & ?).
    exists km, nm. split; [lia|done]. }
  assert (Hweak : ∀ q,
    greedy_max l (λ kr ku, (kr < i ∨ (kr = i ∧ ku < j))%nat ∨ (kr = i ∧ ku = j)) q →
    greedy_max l (λ kr ku, kr < i ∨ (kr = i ∧ ku < S j))%nat q).
  { intros q. apply greedy_max_equiv. intros kr ku _. lia. }
  unfold admit_node.
  destruct (mem_nodes st.1 !! j) as [cj|] eqn:Hcj; cycle 1.
  { split; [|done]. apply Hweak, greedy_max_extend; [done|].
    intros ni' nj Hi' Hj. apply lookup_lt_Some in Hj.
    apply lookup_ge_None in Hcj. rewrite (gi_len _ _ _ HG) in Hcj. lia. }
  destruct (lookup_lt_is_Some_2 l j) as [nj Hj];
    [rewrite <-(gi_len _ _ _ HG); by eapply lookup_lt_Some|].
  destruct (gi_nodes _ _ _ HG j nj Hj) as (c & Hc & Hmapped).
  rewrite Hcj in Hc. injection Hc as ->. simpl.
  destruct (c <? 0) eqn:Hneg; simpl; cycle 1.
  { split; [|done]. apply Hweak, greedy_max_extend; [done|].
    intros ni' nj' Hi' Hj' _ _. simplify_eq. left.
    destruct Hmapped as [r Hr]; [lia|].
    destruct (gi_rep _ _ _ HG _ _ Hr) as (kr & _ & nr & _ & Hkr & _ & <- & _ & _ & Hlt & _).
    exists kr, nr. split_and!; [lia|done..]. }
  case_bool_decide as Hfree; simpl; cycle 1.
  { split; [|done]. apply Hweak, greedy_max_extend; [done|].
    intros ni' nj' Hi' Hj' _ _. simplify_eq. right.
    destruct (Hcov _ Hfree) as (km & nm & ? & ? & ? & ?).
    exists km, nm. done. }
  assert (Hne : MemNode.name ni ≠ MemNode.name nj).
  { intros Heq. assert (i = j) by eauto using wf_lookup_inj. lia. }
  split.
  - apply Hweak, greedy_max_extend.
    + apply (greedy_max_insert l _ st.1 j nj c cidx); [done..|lia|lia|by left|done].
    + intros ni' nj' Hi' Hj' _ _. simplify_eq. left. eexists i, _. simpl.
      split_and!; [lia|done|]. apply lookup_insert_eq.
  - intros x. simpl. rewrite elem_of_union. intros [Hx|Hx].
    + destruct (Hcov x Hx) as (km & nm & Hlt & Hkm & Hm & Hin).
      exists km, nm. split_and!; [lia|done| |done].
      rewrite lookup_insert_ne; [done|].
      intros Heq. assert (j = km) by eauto using wf_lookup_inj. lia.
    + exists j, nj. split_and!; [lia|done| |done]. apply lookup_insert_eq.
Qed.

Lemma admit_node_cluster_size root cidx j st :
  cluster_size (admit_node root cidx j st).1 = cluster_size st.1.
Proof.
  unfold admit_node. destruct (mem_nodes st.1 !! j); [|done].
  by destruct (_ && _).
Qed.

(** The state in which the inner loop of a new cluster starts. *)
Lemma open_cluster_start l i p ni c :
  well_formed l → l !! i = Some ni →
  mem_nodes p !! i = Some (MemNode.set_cluster c ni) →
  greedy_inv l i p →
  inner_inv l i ni
    (mkPlan (<[i := MemNode.set_cluster
                      (cast_int (Z.of_nat (size (cluster_size p))))
                      (MemNode.set_cluster c ni)]> (mem_nodes p))
            (<[MemNode.name ni := MemNode.name ni]> (node2cluster p))
            (<[MemNode.name ni := cast_int (MemNode.size ni)]> (cluster_size p)),
     MemNode.adj ni).
Proof.
  intros Hwf Hni Hc HG. pose proof Hwf as (Hnd & _ & _).
  assert (Hi : (i < length l)%nat) by (by eapply lookup_lt_Some).
  assert (Hni_in : ni ∈ l) by (by eapply list_elem_of_lookup_2).
  set (cidx := cast_int (Z.of_nat (size (cluster_size p)))).
  assert (Hnoroot : ∀ u, node2cluster p !! u ≠ Some (MemNode.name ni)).
  { intros u Hur.
    destruct (gi_rep _ _ _ HG _ _ Hur) as (kr & ku & nr & nu & Hkr & _ & Hnr & _ & _ & Hlt & _).
    assert (kr = i) by eauto using wf_lookup_inj. lia. }
  assert (Hother : ∀ k nk, (k < i)%nat → l !! k = Some nk →
                           MemNode.name ni ≠ MemNode.name nk).
  { intros k nk Hk Hlk Heq. assert (i = k) by eauto using wf_lookup_inj. lia. }
  split_and!; simpl.
  - split; simpl.
    + by rewrite length_insert, (gi_len _ _ _ HG).
    + intros k nk Hk. destruct (decide (k = i)) as [->|Hki].
      * simplify_eq. exists cidx. split.
        -- rewrite list_lookup_insert_eq; [done|]. by rewrite (gi_len _ _ _ HG).
        -- intros _. rewrite lookup_insert_eq. eauto.
      * destruct (gi_nodes _ _ _ HG k nk Hk) as (c' & Hc' & Hm).
        exists c'. split; [by rewrite list_lookup_insert_ne|].
        intros Hpos. rewrite lookup_insert. case_decide; eauto.
    + intros k nk Hk Hlk. rewrite lookup_insert. case_decide; [eauto|].
      destruct (decide (k = i)) as [->|]; [by simplify_eq|].
      apply (gi_done _ _ _ HG k); [lia|done].
    + intros u r. rewrite lookup_insert. case_decide as Hu.
      * intros [= <-]. subst u. exists i, i, ni, ni.
        split_and!; [done..|lia|lia| |]; by rewrite lookup_insert_eq.
      * intros Hur.
        destruct (gi_rep _ _ _ HG _ _ Hur)
          as (kr & ku & nr & nu & Hkr & Hku & Hnr & Hnu & Hle & Hlt & Hrr & Hcs).
        assert (MemNode.name ni ≠ r) by (rewrite <-Hnr; by eapply Hother).
        exists kr, ku, nr, nu. rewrite !lookup_insert_ne by done.
        split_and!; [done..|lia|done|done].
    + intros nu nv r Hnu Hnv. rewrite !lookup_insert.
      case_decide as Hu; case_decide as Hv.
      * congruence.
      * intros [= <-] Hvr _. by apply Hnoroot in Hvr.
      * intros Hur [= <-] _. by apply Hnoroot in Hur.
      * by apply (gi_sep _ _ _ HG).
    + intros r s. rewrite !lookup_insert. case_decide as Hr; [by subst|].
      by apply (gi_cs _ _ _ HG).
  - by rewrite lookup_insert_eq.
  - by rewrite lookup_insert_eq.
  - intros nu Hnu. rewrite lookup_insert. case_decide as Hu.
    + intros _. by assert (ni = nu) as -> by eauto using wf_elem_inj.
    + intros Hur. by apply Hnoroot in Hur.
Qed.

Lemma size_insert_le {V} (m : gmap string V) k v :
  (size (<[k := v]> m) ≤ S (size m))%nat.
Proof.
  destruct (m !! k) eqn:Hk.
  - rewrite map_size_insert_Some by done. lia.
  - rewrite map_size_insert_None by done. lia.
Qed.

Lemma open_cluster_max l i p :
  well_formed l → (i < length l)%nat → Z.of_nat (length l) ≤ 2 ^ 31 →
  greedy_inv l i p →
  greedy_max l (λ kr _, kr < i)%nat p →
  (size (cluster_size p) ≤ i)%nat →
  greedy_max l (λ kr _, kr < S i)%nat (open_cluster i p) ∧
  (size (cluster_size (open_cluster i p)) ≤ S i)%nat.
Proof.
  intros Hwf Hi Hbound HG HM Hsize. pose proof Hwf as (Hnd & _ & _).
  destruct (lookup_lt_is_Some_2 l i Hi) as [ni Hni].
  destruct (gi_nodes _ _ _ HG i ni Hni) as (c & Hc & Hmapped).
  unfold open_cluster. rewrite Hc. simpl.
  destruct (c >=? 0) eqn:Hsign.
  { split; [|lia]. eapply greedy_max_equiv; cycle 1.
    - apply (greedy_max_add l _ (λ kr _, kr = i) p HM).
      intros kr ku nr nu Hkr Hku _ -> Hself. exfalso. simplify_eq.
      destruct (gi_rep _ _ _ HG _ _ Hself) as (kr & _ & nr' & _ & Hkr' & _ & Hn & _ & _ & Hlt & _).
      assert (kr = i) by eauto using wf_lookup_inj. lia.
    - simpl. intros kr ku _ Hd. lia. }
  set (cidx := cast_int (Z.of_nat (size (cluster_size p)))).
  assert (Hcidx : 0 ≤ cidx).
  { unfold cidx, cast_int. rewrite Z.mod_small; lia. }
  set (p1 := mkPlan _ _ _).
  assert (Hstart : inner_inv l i ni (p1, MemNode.adj ni)).
  { by apply (open_cluster_start l i p ni c). }
  assert (Hlen : length (mem_nodes p) = length l) by apply (gi_len _ _ _ HG).
  rewrite Hlen.
  pose proof (for_range_ind
    (λ j st, inner_inv l i ni st ∧
             greedy_max l (λ kr ku, kr < i ∨ (kr = i ∧ ku < j))%nat st.1 ∧
             covered l ni j st ∧
             (size (cluster_size st.1) ≤ S i)%nat)
    (S i) (length l) (admit_node (MemNode.name ni) cidx) (p1, MemNode.adj ni)) as Hloop.
  destruct Hloop as (_ & HM' & _ & Hsz').
  - lia.
  - split_and!; [done| | |].
    + eapply greedy_max_equiv; cycle 1.
      * apply (greedy_max_insert l _ p i ni c cidx); [done..|lia|lia| |exact HM].
        right. intros kr ku Hd. simpl in Hd. lia.
      * simpl. intros kr ku Hr Hd. lia.
    + intros x Hx. simpl in *. exists i, ni.
      split_and!; [lia|done| |done]. apply lookup_insert_eq.
    + simpl. etrans; [apply size_insert_le|]. lia.
  - intros j st Hj (Hinner & HMj & Hcov & Hsz).
    destruct (admit_node_max l i ni cidx j st) as [? ?];
      [done|done|lia|done|done|done|done|].
    split_and!; [|done|done|].
    + apply admit_node_inv; [done..|lia|done].
    + by rewrite admit_node_cluster_size.
  - split; [|done]. eapply greedy_max_equiv; [|exact HM'].
    simpl. intros kr ku Hr Hd. lia.
Qed.

Lemma greedy_max_spec l :
  well_formed l → Z.of_nat (length l) ≤ 2 ^ 31 →
  greedy_max l (λ _ _, True) (greedy (mkPlan l ∅ ∅)).
Proof.
  intros Hwf Hbound. unfold greedy. simpl.
  pose proof (for_range_ind
    (λ i p, greedy_inv l i p ∧ greedy_max l (λ kr _, kr < i)%nat p ∧
            (size (cluster_size p) ≤ i)%nat)
    0 (length l) open_cluster (mkPlan l ∅ ∅)) as Hloop.
  destruct Hloop as (_ & HM & _).
  - lia.
  - split_and!; [by apply greedy_inv_init| |simpl; by rewrite map_size_empty].
    split; simpl; [intros; apply lookup_empty|]. intros; lia.
  - intros i p Hi (HG & HM & Hsz).
    destruct (open_cluster_max l i p) as [? ?]; [done|lia|done..|].
    split_and!; [|done..]. apply open_cluster_inv; [done|lia|done].
  - eapply greedy_max_equiv; [|exact HM]. simpl. intros kr ku Hr _. lia.
Qed.

Lemma length_omap_le {A B} (f : A → option B) (l : list A) :
  (length (omap f l) ≤ length l)%nat.
Proof.
  induction l as [|x l IH]; [done|].
  change (omap f (x :: l)) with
    (match f x with Some y => y :: omap f l | None => omap f l end).
  destruct (f x); simpl; lia.
Qed.

Lemma sorted_nodes_length E lc st :
  (length (sorted_nodes E lc st) ≤ size lc)%nat.
Proof.
  unfold sorted_nodes. rewrite std_sort_perm.
  destruct (build_adjacency_inv (make_mem_nodes E lc st)) as [-> _].
  unfold make_mem_nodes. etrans; [apply length_omap_le|].
  by rewrite iterate_perm, length_map_to_list.
Qed.

Lemma plan_conflict_index E lc st kr ku nr nu ru :
  Z.of_nat (size lc) ≤ 2 ^ 31 →
  sorted_nodes E lc st !! kr = Some nr →
  sorted_nodes E lc st !! ku = Some nu →
  (kr < ku)%nat →
  node2cluster (plan_of E lc st) !! MemNode.name nr = Some (MemNode.name nr) →
  node2cluster (plan_of E lc st) !! MemNode.name nu = Some ru →
  (∀ kr' nr', (kr' ≤ kr)%nat → sorted_nodes E lc st !! kr' = Some nr' →
              MemNode.name nr' ≠ ru) →
  ∃ nm, nm ∈ sorted_nodes E lc st ∧ MemNode.name nm ≠ MemNode.name nu ∧
        node2cluster (plan_of E lc st) !! MemNode.name nm = Some (MemNode.name nr) ∧
        overlap (MemNode.lifetime nm) (MemNode.lifetime nu) = true.
Proof.
  intros Hbound Hkr Hku Hlt Hself Hu Hlater.
  pose proof (sorted_nodes_wf E lc st) as Hwf.
  pose proof (sorted_nodes_length E lc st) as Hlen.
  assert (HM : greedy_max (sorted_nodes E lc st) (λ _ _, True) (plan_of E lc st)).
  { apply greedy_max_spec; [done|lia]. }
  destruct (gm_max _ _ _ HM kr ku nr nu Hkr Hku Hlt I Hself)
    as [(kr' & nr' & Hle & Hkr' & Hm)|(km & nm & _ & Hkm & Hm & Hadj)].
  - exfalso. rewrite Hu in Hm. injection Hm as ->. by eapply Hlater.
  - apply list_elem_of_lookup_2 in Hkm, Hku.
    destruct Hwf as (_ & _ & Hadj'). apply (Hadj' nm nu Hkm Hku) in Hadj as [Hne Hov].
    exists nm. split_and!; [done|by apply not_eq_sym|done|done].
Qed.

(** X5.  A candidate in a cluster whose representative is strictly smaller
    than another representative [r1] overlaps some member of [r1]'s
    cluster. *)
Theorem later_cluster_conflicts E lc st u ru r1 sru s1 :
  Z.of_nat (size lc) ≤ 2 ^ 31 →
  (MakeSimpleReusePlan E lc st ∅ ∅).1 !! u = Some ru →
  (MakeSimpleReusePlan E lc st ∅ ∅).1 !! r1 = Some r1 →
  st !! ru = Some sru → st !! r1 = Some s1 → sru < s1 →
  ∃ m lm lu, m ≠ u ∧
    (MakeSimpleReusePlan E lc st ∅ ∅).1 !! m = Some r1 ∧
    lc !! m = Some lm ∧ lc !! u = Some lu ∧ overlap lm lu = true.
Proof.
  rewrite MakeSimpleReusePlan_plan_of. simpl.
  intros Hbound Hu Hr1 Hsru Hs1 Hlt.
  pose proof (plan_of_inv E lc st) as HG.
  pose proof (sorted_nodes_wf E lc st) as (Hnd & _ & _).
  destruct (gi_rep _ _ _ HG _ _ Hu)
    as (kru & ku & nru & nu & Hkru & Hku & <- & <- & Hle & _).
  destruct (gi_rep _ _ _ HG _ _ Hr1)
    as (kr & _ & nr & _ & Hkr & _ & <- & _).
  pose proof (sorted_nodes_lookup E lc st nr (list_elem_of_lookup_2 _ _ _ Hkr)) as [_ Hsr].
  pose proof (sorted_nodes_lookup E lc st nru (list_elem_of_lookup_2 _ _ _ Hkru)) as [_ Hsu].
  pose proof (sorted_nodes_lookup E lc st nu (list_elem_of_lookup_2 _ _ _ Hku)) as [Hlu _].
  assert (kr < kru)%nat as Hidx.
  { destruct (decide (kr < kru)%nat) as [|Hge]; [done|exfalso].
    destruct (decide (kr = kru)) as [->|Hne]; [simplify_eq; lia|].
    pose proof (StronglySorted_lookup _ _ kru kr nru nr
                  (sorted_nodes_sorted E lc st) ltac:(lia) Hkru Hkr) as Hsz.
    simpl in Hsz. simplify_eq. lia. }
  destruct (plan_conflict_index E lc st kr ku nr nu (MemNode.name nru))
    as (nm & Hnm & Hne & Hm & Hov); [done..|lia|done|done| |].
  { intros kr' nr' Hle' Hkr' Heq.
    assert (kr' = kru) by eauto using wf_lookup_inj. lia. }
  pose proof (sorted_nodes_lookup E lc st nm Hnm) as [Hlm _].
  exists (MemNode.name nm), (MemNode.lifetime nm), (MemNode.lifetime nu). done.
Qed.

(** X6.  When no two candidates overlap, all of them share one
    representative. *)
Theorem disjoint_candidates_share_one_cluster E lc st u v ru rv :
  Z.of_nat (size lc) ≤ 2 ^ 31 →
  (∀ a b la lb, a ≠ b → lc !! a = Some la → lc !! b = Some lb →
                is_Some (st !! a) → is_Some (st !! b) → overlap la lb = false) →
  (MakeSimpleReusePlan E lc st ∅ ∅).1 !! u = Some ru →
  (MakeSimpleReusePlan E lc st ∅ ∅).1 !! v = Some rv →
  ru = rv.
Proof.
  rewrite MakeSimpleReusePlan_plan_of. simpl.
  intros Hbound Hdisj Hu Hv.
  pose proof (plan_of_inv E lc st) as HG.
  pose proof (sorted_nodes_wf E lc st) as (Hnd & _ & _).
  assert (Hone : ∀ u v ru rv kru krv ku kv nru nrv nu nv,
    sorted_nodes E lc st !! kru = Some nru → sorted_nodes E lc st !! krv = Some nrv →
    sorted_nodes E lc st !! ku = Some nu → sorted_nodes E lc st !! kv = Some nv →
    MemNode.name nru = ru → MemNode.name nrv = rv →
    MemNode.name nu = u → MemNode.name nv = v →
    (krv ≤ kv)%nat →
    node2cluster (plan_of E lc st) !! ru = Some ru →
    node2cluster (plan_of E lc st) !! v = Some rv →
    (kru < krv)%nat → False).
  { clear u v ru rv Hu Hv. intros u v ru rv kru krv ku kv nru nrv nu nv
      Hkru Hkrv Hku Hkv <- <- <- <- Hle Hself Hvr Hlt.
    destruct (plan_conflict_index E lc st kru kv nru nv (MemNode.name nrv))
      as (nm & Hnm & Hne & Hm & Hov); [done..|lia|done|done| |].
    { intros kr' nr' Hle' Hkr' Heq.
      assert (kr' = krv) by eauto using wf_lookup_inj. lia. }
    pose proof (sorted_nodes_lookup E lc st nm Hnm) as [Hlm Hsm].
    pose proof (sorted_nodes_lookup E lc st nv (list_elem_of_lookup_2 _ _ _ Hkv)) as [Hlv Hsv].
    rewrite (Hdisj _ _ _ _ Hne Hlm Hlv) in Hov; [done|eauto..]. }
  destruct (gi_rep _ _ _ HG _ _ Hu)
    as (kru & ku & nru & nu & Hkru & Hku & Hnru & Hnu & Hle & _ & Hself & _).
  destruct (gi_rep _ _ _ HG _ _ Hv)
    as (krv & kv & nrv & nv & Hkrv & Hkv & Hnrv & Hnv & Hle' & _ & Hself' & _).
  destruct (decide (kru = krv)) as [->|Hne]; [congruence|exfalso].
  destruct (decide (kru < krv)%nat).
  - eapply (Hone u v ru rv kru krv ku kv); eauto.
  - eapply (Hone v u rv ru krv kru kv ku); eauto. lia.
Qed.

(** ** More on [CollectLifeCycle] *)

Lemma extends_refl lc : extends lc lc.
Proof. intros v a b H. exists b. split; [done|lia]. Qed.

Lemma extends_trans lc1 lc2 lc3 :
  extends lc1 lc2 → extends lc2 lc3 → extends lc1 lc3.
Proof.
  intros H1 H2 v a b H. destruct (H1 _ _ _ H) as (b' & H' & ?).
  destruct (H2 _ _ _ H') as (b'' & H'' & ?). exists b''. split; [done|lia].
Qed.

Lemma op_steps_nil : op_steps [] = 0.
Proof. done. Qed.

Lemma op_steps_cons op ops :
  op_steps (op :: ops) = (if IsOp op then 1 else 0) + op_steps ops.
Proof.
  unfold op_steps. rewrite filter_cons. destruct (IsOp op) eqn:H.
  - rewrite decide_True by done. simpl length. lia.
  - rewrite decide_False by done. lia.
Qed.

Lemma op_steps_app l1 l2 : op_steps (l1 ++ l2) = op_steps l1 + op_steps l2.
Proof. unfold op_steps. rewrite filter_app, length_app. lia. Qed.

Lemma op_steps_nonneg l : 0 ≤ op_steps l.
Proof. unfold op_steps. lia. Qed.

Lemma op_steps_le_length l : op_steps l ≤ Z.of_nat (length l).
Proof. unfold op_steps. pose proof (length_filter (λ n, IsOp n = true) l). lia. Qed.

Lemma visit_var_extends step node lc lc' :
  visit_var step node lc = Ok lc' → extends lc lc'.
Proof.
  unfold visit_var. destruct (Var node) as [vd|]; [|intros [= <-]; apply extends_refl].
  destruct (Persistable vd).
  { destruct (is_break node); [intros [= <-]; apply extends_refl|].
    destruct (forallb _ _); [intros [= <-]; apply extends_refl|done]. }
  intros [= <-] v a b Hv.
  destruct (lc !! Name node) as [[a0 b0]|] eqn:Hold; rewrite lookup_insert; case_decide;
    simplify_eq; simpl; eauto using extends_refl.
  - exists (step `max` b). split; [done|lia].
  - exists b. split; [done|lia].
  - exists b. split; [done|lia].
Qed.

Lemma visit_var_started step node lc lc' :
  0 ≤ step → started step lc →
  visit_var step node lc = Ok lc' → started step lc'.
Proof.
  intros Hstep Hlc. unfold visit_var.
  destruct (Var node) as [vd|]; [|by intros [= <-]].
  destruct (Persistable vd).
  { destruct (is_break node); [by intros [= <-]|].
    destruct (forallb _ _); [by intros [= <-]|done]. }
  intros [= <-] v a b.
  destruct (lc !! Name node) as [[a0 b0]|] eqn:Hold;
    rewrite lookup_insert; case_decide; simpl; try apply Hlc.
  - intros [= <- <-]. destruct (Hlc _ _ _ Hold) as (? & ? & ?). lia.
  - intros [= <- <-]. lia.
Qed.

(** The visit of a non-persistent variable leaves an interval that holds
    the current step. *)
Lemma visit_var_covers step node vd lc lc' :
  started step lc →
  Var node = Some vd → Persistable vd = false →
  visit_var step node lc = Ok lc' →
  ∃ a b, lc' !! Name node = Some (a, b) ∧ a ≤ step ≤ b.
Proof.
  intros Hlc HVar Hp. unfold visit_var. rewrite HVar, Hp. intros [= <-].
  destruct (lc !! Name node) as [[a0 b0]|] eqn:Hold; rewrite lookup_insert_eq; simpl.
  - exists a0, (step `max` b0). split; [done|].
    destruct (Hlc _ _ _ Hold) as (? & ? & ?). lia.
  - exists step, step. split; [done|lia].
Qed.

Lemma for_each_visit_var_extends step req lc lc' :
  for_each (visit_var step) req lc = Ok lc' → extends lc lc'.
Proof.
  revert lc. induction req as [|node req IH]; intros lc; simpl.
  - intros [= <-]. apply extends_refl.
  - destruct (visit_var step node lc) as [lc1|] eqn:H1; simpl; [|done].
    intros Hrest. eapply extends_trans; [by eapply visit_var_extends|by apply IH].
Qed.

Lemma for_each_visit_var_started step req lc lc' :
  0 ≤ step → started step lc →
  for_each (visit_var step) req lc = Ok lc' → started step lc'.
Proof.
  intros Hstep Hlc Hrun.
  eapply (for_each_inv _ (started step)); [|exact Hlc|exact Hrun].
  intros x t t' _. by apply visit_var_started.
Qed.

Lemma for_each_visit_var_covers step req node vd lc lc' :
  0 ≤ step → started step lc →
  node ∈ req → Var node = Some vd → Persistable vd = false →
  for_each (visit_var step) req lc = Ok lc' →
  ∃ a b, lc' !! Name node = Some (a, b) ∧ a ≤ step ≤ b.
Proof.
  intros Hstep Hlc Hin HVar Hp.
  apply list_elem_of_split in Hin as (r1 & r2 & ->).
  rewrite for_each_app. destruct (for_each _ r1 lc) as [lc1|] eqn:H1; simpl; [|done].
  destruct (visit_var step node lc1) as [lc2|] eqn:H2; simpl; [|done].
  intros H3.
  destruct (visit_var_covers step node vd lc1 lc2) as (a & b & Hab & ?);
    [by eapply for_each_visit_var_started|done..|].
  destruct (for_each_visit_var_extends _ _ _ _ H3 _ _ _ Hab) as (b' & ? & ?).
  exists a, b'. split; [done|lia].
Qed.

Lemma emplace_extends var val lc : extends lc (emplace var val lc).
Proof.
  unfold emplace. destruct (lc !! var) eqn:Hold; [apply extends_refl|].
  intros v a b Hv. exists b. split; [|lia].
  rewrite lookup_insert_ne; [done|]. congruence.
Qed.

Lemma emplace_started step var lc :
  0 ≤ step → started step lc → started step (emplace var (0, INT_MAX) lc).
Proof.
  intros Hstep Hlc. unfold emplace. destruct (lc !! var) eqn:Hold; [done|].
  intros v a b. rewrite lookup_insert. case_decide; [|apply Hlc].
  intros [= <- <-]. unfold INT_MAX. lia.
Qed.

Lemma feed_extends outs lc :
  extends lc (foldl (λ lc node, emplace (Name node) (0, INT_MAX) lc) lc outs).
Proof.
  apply (foldl_inv _ (extends lc)); [|apply extends_refl].
  intros x t _ Ht. eapply extends_trans; [exact Ht|apply emplace_extends].
Qed.

Lemma feed_started step outs lc :
  0 ≤ step → started step lc →
  started step (foldl (λ lc node, emplace (Name node) (0, INT_MAX) lc) lc outs).
Proof.
  intros Hstep Hlc. apply (foldl_inv _ (started step)); [|done].
  intros x t _. by apply emplace_started.
Qed.

Lemma feed_present outs lc node :
  node ∈ outs →
  is_Some (foldl (λ lc node, emplace (Name node) (0, INT_MAX) lc) lc outs !! Name node).
Proof.
  intros (o1 & o2 & ->)%list_elem_of_split. rewrite foldl_app. simpl.
  set (lc1 := foldl _ lc o1).
  assert (is_Some (emplace (Name node) (0, INT_MAX) lc1 !! Name node)) as [[a b] Hab].
  { unfold emplace. destruct (lc1 !! Name node) eqn:H; [by rewrite H|].
    rewrite lookup_insert_eq. eauto. }
  destruct (feed_extends o2 _ _ _ _ Hab) as (b' & -> & _). eauto.
Qed.

Lemma visit_op_step op st st' :
  visit_op op st = Ok st' → st'.1 = st.1 + (if IsOp op then 1 else 0).
Proof.
  unfold visit_op. destruct (IsOp op); simpl; [|intros [= <-]; lia].
  destruct (if bool_decide _ then _ else _); simpl; [|done]. by intros [= <-].
Qed.

Lemma visit_op_extends op st st' :
  visit_op op st = Ok st' → extends st.2 st'.2.
Proof.
  unfold visit_op. destruct (IsOp op); simpl; [|intros [= <-]; apply extends_refl].
  case_bool_decide; simpl.
  - intros [= <-]. apply feed_extends.
  - destruct (for_each _ _ _) as [lc'|] eqn:Hrun; simpl; [|done].
    intros [= <-]. by eapply for_each_visit_var_extends.
Qed.

Lemma visit_op_started op st st' :
  0 ≤ st.1 → started st.1 st.2 →
  visit_op op st = Ok st' → started st'.1 st'.2.
Proof.
  intros Hstep Hlc Hrun. pose proof (visit_op_step _ _ _ Hrun) as Hs.
  assert (started st.1 st'.2) as H.
  { revert Hrun. unfold visit_op. destruct (IsOp op); simpl; [|by intros [= <-]].
    case_bool_decide; simpl.
    - intros [= <-]. by apply feed_started.
    - destruct (for_each _ _ _) as [lc'|] eqn:Hrun; simpl; [|done].
      intros [= <-]. by eapply for_each_visit_var_started. }
  intros v a b Hv. destruct (H _ _ _ Hv) as (? & ? & ?).
  split_and!; [done..|]. destruct (IsOp op); lia.
Qed.

Lemma for_each_visit_op_step ops st st' :
  for_each visit_op ops st = Ok st' → st'.1 = st.1 + op_steps ops.
Proof.
  revert st. induction ops as [|op ops IH]; intros st; simpl.
  - intros [= <-]. rewrite op_steps_nil. lia.
  - destruct (visit_op op st) as [st1|] eqn:H1; simpl; [|done].
    intros Hrest. rewrite (IH _ Hrest), (visit_op_step _ _ _ H1), op_steps_cons. lia.
Qed.

Lemma for_each_visit_op_extends ops st st' :
  for_each visit_op ops st = Ok st' → extends st.2 st'.2.
Proof.
  revert st. induction ops as [|op ops IH]; intros st; simpl.
  - intros [= <-]. apply extends_refl.
  - destruct (visit_op op st) as [st1|] eqn:H1; simpl; [|done].
    intros Hrest. eapply extends_trans; [by eapply visit_op_extends|by apply IH].
Qed.

Lemma for_each_visit_op_started ops st st' :
  0 ≤ st.1 → started st.1 st.2 →
  for_each visit_op ops st = Ok st' → started st'.1 st'.2.
Proof.
  revert st. induction ops as [|op ops IH]; intros st H0 Hlc; simpl.
  - by intros [= <-].
  - destruct (visit_op op st) as [st1|] eqn:H1; simpl; [|done].
    apply IH.
    + rewrite (visit_op_step _ _ _ H1). destruct (IsOp op); lia.
    + by eapply visit_op_started.
Qed.

(** The state in which the operator after [pre] is visited, and what the
    rest of the traversal keeps of the state it leaves. *)
Lemma CollectLifeCycle_split F g k lc pre op post :
  CollectLifeCycle F g ∅ k = Ok lc →
  TopologyVariantSort F g k = pre ++ op :: post →
  ∃ lc0 st1,
    started (op_steps pre) lc0 ∧
    visit_op op (op_steps pre, lc0) = Ok st1 ∧
    extends st1.2 lc.
Proof.
  unfold CollectLifeCycle. intros Hrun Hsplit. rewrite Hsplit, for_each_app in Hrun.
  destruct (for_each visit_op pre (0, ∅)) as [[s0 lc0]|] eqn:Hpre; simpl in Hrun; [|done].
  destruct (visit_op op (s0, lc0)) as [st1|] eqn:Hop; simpl in Hrun; [|done].
  destruct (for_each visit_op post st1) as [st2|] eqn:Hpost; simpl in Hrun; [|done].
  injection Hrun as <-.
  pose proof (for_each_visit_op_step _ _ _ Hpre) as Hs. simpl in Hs.
  assert (s0 = op_steps pre) as -> by lia.
  exists lc0, st1. split_and!; [|done|by eapply for_each_visit_op_extends].
  apply (for_each_visit_op_started pre (0, ∅)) in Hpre; [done|done|].
  intros v a b. simpl. by rewrite lookup_empty.
Qed.

(** X7.  Every recorded interval starts at a step from 0 on and does not
    end before it starts. *)
Theorem lifecycle_intervals_ordered F g k lc v a b :
  CollectLifeCycle F g ∅ k = Ok lc →
  lc !! v = Some (a, b) →
  0 ≤ a ≤ b ∧ a ≤ op_steps (TopologyVariantSort F g k).
Proof.
  unfold CollectLifeCycle.
  destruct (for_each _ _ _) as [st|] eqn:Hrun; simpl; [|done].
  intros [= <-] Hv.
  pose proof (for_each_visit_op_step _ _ _ Hrun) as Hs. simpl in Hs.
  apply (for_each_visit_op_started _ (0, ∅)) in Hrun.
  - destruct (Hrun _ _ _ Hv) as (? & ? & ?). lia.
  - done.
  - intros ? ? ?. simpl. by rewrite lookup_empty.
Qed.

Lemma references_covered F g k lc s v :
  CollectLifeCycle F g ∅ k = Ok lc →
  referenced_at (TopologyVariantSort F g k) s v →
  ∃ a b, lc !! v = Some (a, b) ∧ a ≤ s ≤ b.
Proof.
  intros Hrun (pre & op & post & Hsplit & (Hisop & Hfeed & node & vd & Hin & HVar & Hp & <-) & ->).
  destruct (CollectLifeCycle_split F g k lc pre op post Hrun Hsplit)
    as (lc0 & st1 & Hstarted & Hop & Hext).
  unfold visit_op in Hop. rewrite Hisop in Hop. simpl in Hop.
  rewrite bool_decide_eq_false_2 in Hop by done.
  destruct (for_each _ _ _) as [lc1|] eqn:Hreq; simpl in Hop; [|done].
  injection Hop as <-. simpl in Hext.
  destruct (for_each_visit_var_covers _ _ node vd _ _ (op_steps_nonneg pre)
              Hstarted Hin HVar Hp Hreq) as (a & b & Hab & ?).
  destruct (Hext _ _ _ Hab) as (b' & ? & ?). exists a, b'. split; [done|lia].
Qed.

(** X8.  The interval recorded for a variable holds every step at which an
    operator other than "feed" references it. *)
Theorem lifecycle_covers_references F g k lc s v :
  CollectLifeCycle F g ∅ k = Ok lc →
  referenced_at (TopologyVariantSort F g k) s v →
  ∃ a b, lc !! v = Some (a, b) ∧ a ≤ s ≤ b.
Proof. exact (references_covered F g k lc s v). Qed.

Lemma visit_var_keys step node lc lc' v :
  visit_var step node lc = Ok lc' → is_Some (lc' !! v) →
  is_Some (lc !! v) ∨
  ∃ vd, Var node = Some vd ∧ Persistable vd = false ∧ Name node = v.
Proof.
  unfold visit_var. destruct (Var node) as [vd|]; [|intros [= <-]; by left].
  destruct (Persistable vd) eqn:Hp.
  { destruct (is_break node); [intros [= <-]; by left|].
    destruct (forallb _ _); [intros [= <-]; by left|done]. }
  intros [= <-].
  destruct (lc !! Name node) eqn:Hold; rewrite lookup_insert; case_decide; eauto.
Qed.

Lemma for_each_visit_var_keys step req lc lc' v :
  for_each (visit_var step) req lc = Ok lc' → is_Some (lc' !! v) →
  is_Some (lc !! v) ∨
  ∃ node vd, node ∈ req ∧ Var node = Some vd ∧ Persistable vd = false ∧ Name node = v.
Proof.
  revert lc. induction req as [|node req IH]; intros lc; simpl.
  - intros [= <-]. by left.
  - destruct (visit_var step node lc) as [lc1|] eqn:H1; simpl; [|done].
    intros Hrest Hv. destruct (IH _ Hrest Hv) as [Hv1|(n & vd & ? & ?)].
    + destruct (visit_var_keys _ _ _ _ _ H1 Hv1) as [?|(vd & ?)]; [by left|].
      right. exists node, vd. split; [by left|done].
    + right. exists n, vd. split; [by right|done].
Qed.

Lemma feed_keys outs lc v :
  is_Some (foldl (λ lc node, emplace (Name node) (0, INT_MAX) lc) lc outs !! v) →
  is_Some (lc !! v) ∨ ∃ node, node ∈ outs ∧ Name node = v.
Proof.
  revert lc. induction outs as [|node outs IH]; intros lc; simpl; [by left|].
  intros Hv. destruct (IH _ Hv) as [Hv1|(n & ? & ?)].
  - unfold emplace in Hv1. destruct (lc !! Name node) eqn:Hold; [by left|].
    rewrite lookup_insert in Hv1. case_decide; [|by left].
    right. exists node. split; [by left|done].
  - right. exists n. split; [by right|done].
Qed.

Lemma visit_op_keys op st st' v :
  visit_op op st = Ok st' → is_Some (st'.2 !! v) →
  is_Some (st.2 !! v) ∨ sights op v.
Proof.
  unfold visit_op, sights, feeds, references.
  destruct (IsOp op); simpl; [|intros [= <-]; by left].
  case_bool_decide as Hfeed; simpl.
  - intros [= <-] Hv. simpl in Hv. destruct (feed_keys _ _ _ Hv); [by left|].
    right. left. done.
  - destruct (for_each _ _ _) as [lc'|] eqn:Hrun; simpl; [|done].
    intros [= <-] Hv. simpl in Hv.
    destruct (for_each_visit_var_keys _ _ _ _ _ Hrun Hv); [by left|].
    right. right. done.
Qed.

Lemma for_each_visit_op_keys ops st st' v :
  for_each visit_op ops st = Ok st' → is_Some (st'.2 !! v) →
  is_Some (st.2 !! v) ∨ ∃ op, op ∈ ops ∧ sights op v.
Proof.
  revert st. induction ops as [|op ops IH]; intros st; simpl.
  - intros [= <-]. by left.
  - destruct (visit_op op st) as [st1|] eqn:H1; simpl; [|done].
    intros Hrest Hv. destruct (IH _ Hrest Hv) as [Hv1|(o & ? & ?)].
    + destruct (visit_op_keys _ _ _ _ H1 Hv1); [by left|].
      right. exists op. split; [by left|done].
    + right. exists o. split; [by right|done].
Qed.

(** X9.  The keys of the lifecycle map are the names of the outputs of the
    operators "feed" and of the non-persistent variables referenced by the
    other operators of the traversal. *)
Theorem lifecycle_keys F g k lc v :
  CollectLifeCycle F g ∅ k = Ok lc →
  is_Some (lc !! v) ↔
  ∃ op, op ∈ TopologyVariantSort F g k ∧ sights op v.
Proof.
  intros Hrun. split.
  - revert Hrun. unfold CollectLifeCycle.
    destruct (for_each _ _ _) as [st|] eqn:Hfe; simpl; [|done].
    intros [= <-] Hv.
    destruct (for_each_visit_op_keys _ _ _ _ Hfe Hv) as [Hempty|?]; [|done].
    simpl in Hempty. rewrite lookup_empty in Hempty. by destruct Hempty.
  - intros (op & (pre & post & Hsplit)%list_elem_of_split & Hs).
    destruct Hs as [(Hisop & Hfeed & node & Hin & <-)|Href].
    + destruct (CollectLifeCycle_split F g k lc pre op post Hrun Hsplit)
        as (lc0 & st1 & _ & Hop & Hext).
      unfold visit_op in Hop. rewrite Hisop in Hop. simpl in Hop.
      rewrite bool_decide_eq_true_2 in Hop by done. simpl in Hop.
      injection Hop as <-. simpl in Hext.
      destruct (feed_present (outputs op) lc0 node Hin) as [[a b] Hab].
      destruct (Hext _ _ _ Hab) as (b' & -> & _). eauto.
    + destruct (references_covered F g k lc (op_steps pre) v Hrun)
        as (a & b & -> & _); [|eauto].
      exists pre, op, post. done.
Qed.

Lemma visit_var_pinned step node lc lc' v :
  step ≤ INT_MAX → lc !! v = Some (0, INT_MAX) →
  visit_var step node lc = Ok lc' → lc' !! v = Some (0, INT_MAX).
Proof.
  intros Hstep Hv Hrun.
  destruct (visit_var_extends _ _ _ _ Hrun _ _ _ Hv) as (b' & Hb' & Hle).
  revert Hrun. unfold visit_var.
  destruct (Var node) as [vd|]; [|by intros [= <-]].
  destruct (Persistable vd).
  { destruct (is_break node); [by intros [= <-]|].
    destruct (forallb _ _); [by intros [= <-]|done]. }
  intros [= <-].
  destruct (lc !! Name node) as [[a0 b0]|] eqn:Hold;
    rewrite lookup_insert; case_decide; simplify_eq; simpl; try done.
  do 2 f_equal. lia.
Qed.

Lemma emplace_pinned var val lc v x :
  lc !! v = Some x → emplace var val lc !! v = Some x.
Proof.
  intros Hv. unfold emplace. destruct (lc !! var) eqn:Hold; [done|].
  rewrite lookup_insert_ne; [done|]. congruence.
Qed.

Lemma visit_op_pinned op st st' v :
  st.1 ≤ INT_MAX → st.2 !! v = Some (0, INT_MAX) →
  visit_op op st = Ok st' → st'.2 !! v = Some (0, INT_MAX).
Proof.
  intros Hstep Hv. unfold visit_op.
  destruct (IsOp op); simpl; [|by intros [= <-]].
  case_bool_decide; simpl.
  - intros [= <-]. simpl.
    apply (foldl_inv _ (λ t, t !! v = Some (0, INT_MAX))); [|done].
    intros x t _. apply emplace_pinned.
  - destruct (for_each _ _ _) as [lc'|] eqn:Hrun; simpl; [|done].
    intros [= <-]. simpl.
    eapply (for_each_inv _ (λ t, t !! v = Some (0, INT_MAX))); [|exact Hv|exact Hrun].
    intros x t t' _. by apply visit_var_pinned.
Qed.

Lemma for_each_visit_op_pinned ops st st' v :
  st.1 + Z.of_nat (length ops) ≤ 2 ^ 31 →
  st.2 !! v = Some (0, INT_MAX) →
  for_each visit_op ops st = Ok st' → st'.2 !! v = Some (0, INT_MAX).
Proof.
  revert st. induction ops as [|op ops IH]; intros st Hn Hv; simpl.
  - by intros [= <-].
  - destruct (visit_op op st) as [st1|] eqn:H1; simpl; [|done].
    simpl in Hn. apply IH.
    + rewrite (visit_op_step _ _ _ H1). destruct (IsOp op); lia.
    + eapply visit_op_pinned; [|done..]. unfold INT_MAX. lia.
Qed.

Lemma feed_fresh outs lc node :
  lc !! Name node = None → node ∈ outs →
  foldl (λ lc node, emplace (Name node) (0, INT_MAX) lc) lc outs !! Name node =
  Some (0, INT_MAX).
Proof.
  intros Hnone Hin. revert lc Hnone.
  induction outs as [|o outs IH]; intros lc Hnone; simpl.
  - by apply elem_of_nil in Hin.
  - destruct (decide (Name o = Name node)) as [Heq|Hne].
    + apply (foldl_inv _ (λ t, t !! Name node = Some (0, INT_MAX))).
      * intros x t _. apply emplace_pinned.
      * unfold emplace. rewrite Heq, Hnone. apply lookup_insert_eq.
    + apply elem_of_cons in Hin as [->|Hin]; [done|]. apply IH; [done|].
      unfold emplace. destruct (lc !! Name o); [done|]. by rewrite lookup_insert_ne.
Qed.

(** X10.  A variable first sighted as the output of an operator "feed" has
    the interval [(0, INT_MAX)] at the end of a traversal whose step
    counter stays within [int]. *)
Theorem feed_output_interval F g k lc pre op post v :
  Z.of_nat (length (TopologyVariantSort F g k)) ≤ 2 ^ 31 →
  CollectLifeCycle F g ∅ k = Ok lc →
  TopologyVariantSort F g k = pre ++ op :: post →
  feeds op v →
  (∀ op', op' ∈ pre → ¬ sights op' v) →
  lc !! v = Some (0, INT_MAX).
Proof.
  intros Hbound Hrun Hsplit (Hisop & Hfeed & node & Hin & <-) Hfirst.
  revert Hrun. unfold CollectLifeCycle. rewrite Hsplit, for_each_app.
  rewrite Hsplit, length_app in Hbound. simpl in Hbound.
  destruct (for_each visit_op pre (0, ∅)) as [st0|] eqn:Hpre; simpl; [|done].
  destruct (visit_op op st0) as [st1|] eqn:Hop; simpl; [|done].
  destruct (for_each visit_op post st1) as [st2|] eqn:Hpost; simpl; [|done].
  intros [= <-].
  pose proof (for_each_visit_op_step _ _ _ Hpre) as Hs0. simpl in Hs0.
  pose proof (visit_op_step _ _ _ Hop) as Hs1. rewrite Hisop in Hs1.
  pose proof (op_steps_le_length pre).
  assert (st0.2 !! Name node = None) as Hnone.
  { apply eq_None_not_Some. intros Hv.
    destruct (for_each_visit_op_keys _ _ _ _ Hpre Hv) as [Hempty|(o & Ho & Hs)].
    - simpl in Hempty. rewrite lookup_empty in Hempty. by destruct Hempty.
    - by apply (Hfirst o). }
  eapply (for_each_visit_op_pinned post st1); [lia| |exact Hpost].
  revert Hop. unfold visit_op. rewrite Hisop. simpl.
  rewrite bool_decide_eq_true_2 by done. simpl. intros [= <-]. simpl.
  by apply feed_fresh.
Qed.

(** X17.  In the published plan, a variable referenced while another is
    live (between two of its references) never shares its representative. *)
Theorem live_variables_never_share E F argument registry registry' n2c
    u v s1 s s2 ru rv :
  RunImpl E F argument registry = Ok registry' →
  enable_memory_optim argument = true →
  registry' !! (root_predictor_id argument, "memory_optimize_pass") =
    Some (Node2ClusterInfo n2c) →
  referenced_at (TopologyVariantSort F (main_graph_ptr argument) 0) s1 u →
  referenced_at (TopologyVariantSort F (main_graph_ptr argument) 0) s2 u →
  referenced_at (TopologyVariantSort F (main_graph_ptr argument) 0) s v →
  s1 ≤ s ≤ s2 → u ≠ v →
  n2c !! u = Some ru → n2c !! v = Some rv → ru ≠ rv.
Proof.
  unfold RunImpl. intros Hrun Hflag Hreg Hu1 Hu2 Hv Hs Hne Hru Hrv.
  rewrite Hflag in Hrun. simpl in Hrun.
  destruct (CollectLifeCycle _ _ _ _) as [lc|] eqn:Hlc; simpl in Hrun; [|done].
  destruct (CollectVarMemorySize _ _ _) as [st|] eqn:Hst; simpl in Hrun; [|done].
  fold (sorted_nodes E lc st) in Hrun. fold (plan_of E lc st) in Hrun.
  injection Hrun as <-.
  unfold Set_ in Hreg. rewrite lookup_insert_eq in Hreg. injection Hreg as <-.
  destruct (references_covered _ _ _ _ _ _ Hlc Hu1) as (a & b & Hab & ?).
  destruct (references_covered _ _ _ _ _ _ Hlc Hu2) as (a' & b' & Hab' & ?).
  destruct (references_covered _ _ _ _ _ _ Hlc Hv) as (c & d & Hcd & ?).
  simplify_eq. intros ->.
  pose proof (plan_sep E lc st u v rv _ _ Hru Hrv Hne Hab Hcd) as Hno.
  assert (overlap (a, b) (c, d) = true); [|congruence].
  apply overlap_spec. simpl. lia.
Qed.

(** X18.  [CollectLifeCycle] only adds to the map it is given: an entry
    already there keeps its start, and its end never moves back. *)
Theorem lifecycles_extend_incoming F g k lc0 lc v a b :
  CollectLifeCycle F g lc0 k = Ok lc →
  lc0 !! v = Some (a, b) →
  ∃ b', lc !! v = Some (a, b') ∧ b ≤ b'.
Proof.
  unfold CollectLifeCycle.
  destruct (for_each _ _ _) as [st|] eqn:Hrun; simpl; [|done].
  intros [= <-] Hv.
  apply for_each_visit_op_extends in Hrun. by apply Hrun.
Qed.

(** ** More on [CollectVarMemorySize] and [RunImpl] *)

Lemma scan_ops_throw l e :
  scan_ops l = Throw e →
  e = NotAnOperation ∧ ∃ tmp, tmp ∈ l ∧ IsOp tmp = false.
Proof.
  induction l as [|tmp l IH]; simpl; [done|].
  destruct (IsOp tmp) eqn:Hisop; simpl.
  - case_bool_decide; [done|]. intros [-> (t & ? & ?)]%IH.
    split; [done|]. exists t. split; [by right|done].
  - intros [= <-]. split; [done|]. exists tmp. split; [by left|done].
Qed.

Lemma valid_var_throw node e :
  valid_var node = Throw e →
  e = NotAnOperation ∧ ∃ tmp, tmp ∈ inputs node ++ outputs node ∧ IsOp tmp = false.
Proof.
  unfold valid_var. destruct (scan_ops (inputs node)) as [[|]|e'] eqn:Hin; simpl.
  - intros [-> (t & ? & ?)]%scan_ops_throw. split; [done|].
    exists t. rewrite elem_of_app. eauto.
  - done.
  - intros [= ->]. apply scan_ops_throw in Hin as [-> (t & ? & ?)]. split; [done|].
    exists t. rewrite elem_of_app. eauto.
Qed.

Lemma collect_black_throw nodes bl0 e :
  for_each collect_black nodes bl0 = Throw e →
  e = NotAnOperation ∧
  ∃ node tmp, node ∈ nodes ∧ is_Some (dense_var node) ∧
              tmp ∈ inputs node ++ outputs node ∧ IsOp tmp = false.
Proof.
  revert bl0. induction nodes as [|n nodes IH]; intros bl0; simpl; [done|].
  unfold collect_black at 1. destruct (dense_var n) as [vd|] eqn:Hd; simpl.
  - destruct (valid_var n) as [ok|e'] eqn:Hv; simpl.
    + intros [-> (m & t & ? & ?)]%IH. split; [done|].
      exists m, t. split; [by right|done].
    + intros [= ->]. apply valid_var_throw in Hv as [-> (t & ? & ?)].
      split; [done|]. exists n, t. split_and!; [by left|by rewrite Hd|done..].
  - intros [-> (m & t & ? & ?)]%IH. split; [done|].
    exists m, t. split; [by right|done].
Qed.

(** X15.  The only error of [CollectVarMemorySize] is the one of a
    neighbour that is no operator. *)
Theorem size_table_error F g st0 :
  (∀ e, CollectVarMemorySize F g st0 = Throw e →
        e = NotAnOperation ∧
        ∃ node tmp, node ∈ Nodes g ∧ is_Some (dense_var node) ∧
                    tmp ∈ inputs node ++ outputs node ∧ IsOp tmp = false) ∧
  ((∀ node tmp, node ∈ Nodes g → is_Some (dense_var node) →
                tmp ∈ inputs node ++ outputs node → IsOp tmp = true) →
   ∃ st, CollectVarMemorySize F g st0 = Ok st).
Proof.
  assert (H : ∀ e, CollectVarMemorySize F g st0 = Throw e →
        e = NotAnOperation ∧
        ∃ node tmp, node ∈ Nodes g ∧ is_Some (dense_var node) ∧
                    tmp ∈ inputs node ++ outputs node ∧ IsOp tmp = false).
  { intros e. unfold CollectVarMemorySize.
    destruct (for_each collect_black (Nodes g) ∅) as [bl|e'] eqn:Hbl; simpl; [done|].
    intros [= ->]. by eapply collect_black_throw. }
  split; [done|]. intros Hops.
  destruct (CollectVarMemorySize F g st0) as [st|e] eqn:Hrun; [eauto|].
  destruct (H e eq_refl) as (_ & node & tmp & ? & ? & ? & Hno).
  rewrite (Hops node tmp) in Hno; done.
Qed.

(** X12.  Black-listing goes by name: once a dense-tensor variable node is
    touched by an operator of the list, no node of that name has a size. *)
Theorem blacklist_is_by_name F g st node op :
  CollectVarMemorySize F g ∅ = Ok st →
  node ∈ Nodes g → is_Some (dense_var node) →
  op ∈ inputs node ++ outputs node → Name op ∈ invalid_op →
  st !! Name node = None.
Proof.
  intros Hrun Hnode Hd Hop Hbad.
  destruct (st !! Name node) as [s|] eqn:Hs; [exfalso|done].
  destruct (space_table_entry _ _ _ _ _ Hrun Hs)
    as (bl & n' & vd & Hbl & _ & _ & _ & _ & Hnotin & _).
  apply Hnotin. apply (collect_black_spec _ _ _ _ Hbl). right.
  exists node. split_and!; [done..|].
  destruct (collect_black_returns _ _ _ node Hbl Hnode Hd) as [[|] Hok]; [|done].
  by pose proof (valid_var_true _ Hok op Hop).
Qed.

(** X11.  Every entry of the size table belongs to a dense-tensor variable
    node that is not persistent; no dense-tensor node of its name is
    touched by an operator of the black list; the value is the size of
    that node. *)
Theorem size_table_provenance F g st v s :
  CollectVarMemorySize F g ∅ = Ok st → st !! v = Some s →
  (∃ node vd, node ∈ Nodes g ∧ Name node = v ∧ IsOp node = false ∧
              Var node = Some vd ∧ GetType vd = VarType_Type_LOD_TENSOR ∧
              Persistable vd = false ∧ s = var_size F vd) ∧
  (∀ n' op, n' ∈ Nodes g → Name n' = v → is_Some (dense_var n') →
            op ∈ inputs n' ++ outputs n' → Name op ∉ invalid_op).
Proof.
  intros Hrun Hs.
  destruct (space_table_entry _ _ _ _ _ Hrun Hs)
    as (bl & node & vd & Hbl & Hnode & Hname & Hd & Hp & Hnotin & ->).
  split.
  - exists node, vd. split_and!; [done..| | | |done|done].
    + apply dense_var_IsVar in Hd. unfold IsVar in Hd. by destruct (IsOp node).
    + by apply dense_var_Var.
    + unfold dense_var in Hd. destruct (IsVar node); [|done].
      destruct (Var node); [|done]. case_bool_decide; [|done]. by simplify_eq.
  - intros n' op Hn' Hname' Hd' Hop Hbad. subst v.
    apply Hnotin. rewrite <-Hname'. apply (collect_black_spec _ _ _ _ Hbl). right.
    exists n'. split_and!; [done..|].
    destruct (collect_black_returns _ _ _ n' Hbl Hn' Hd') as [[|] Hok]; [|done].
    by pose proof (valid_var_true _ Hok op Hop).
Qed.

(** X14.  The size recorded for a variable is fixed by the product of its
    dimensions, negative ones counted as 1, reduced to [int], then
    converted to [size_t] and multiplied by the width modulo [2^64]. *)
Theorem var_size_wraps F vd :
  var_size F vd =
  (cast_int (product (placeholder <$> GetShape vd)) mod 2 ^ 64 *
   SizeOfType F (GetDataType vd)) mod 2 ^ 64.
Proof. unfold var_size. by rewrite accumulate_int_spec. Qed.

(** X16.  [RunImpl] reports the shape error of the lifecycle collection
    first; the error of the size collection only when the lifecycles were
    collected; and it returns exactly when the flag is unset or both
    collections return. *)
Theorem RunImpl_errors E F argument registry :
  (RunImpl E F argument registry = Throw NegativeShape ↔
   enable_memory_optim argument = true ∧
   CollectLifeCycle F (main_graph_ptr argument) ∅ 0 = Throw NegativeShape) ∧
  (RunImpl E F argument registry = Throw NotAnOperation ↔
   enable_memory_optim argument = true ∧
   (∃ lc, CollectLifeCycle F (main_graph_ptr argument) ∅ 0 = Ok lc) ∧
   CollectVarMemorySize F (main_graph_ptr argument) ∅ = Throw NotAnOperation) ∧
  ((∃ registry', RunImpl E F argument registry = Ok registry') ↔
   enable_memory_optim argument = false ∨
   ((∃ lc, CollectLifeCycle F (main_graph_ptr argument) ∅ 0 = Ok lc) ∧
    ∃ st, CollectVarMemorySize F (main_graph_ptr argument) ∅ = Ok st)).
Proof.
  unfold RunImpl. destruct (enable_memory_optim argument); simpl; cycle 1.
  { split_and!; split; try done; try (by intros [? _]); eauto. }
  destruct (CollectLifeCycle_cases F (main_graph_ptr argument) ∅ 0)
    as [[[lc Hlc] _]|[Hlc _]]; rewrite Hlc; simpl; cycle 1.
  { split_and!; split; try done.
    - by intros (_ & [lc ?] & _).
    - by intros [? ?].
    - intros [?|[[lc ?] _]]; done. }
  destruct (CollectVarMemorySize F (main_graph_ptr argument) ∅) as [st|e] eqn:Hst; simpl.
  - destruct (MakeSimpleReusePlan E lc st ∅ ∅) as [n2c cs].
    split_and!; split; try done; try (by intros (_ & ?)); try (by intros (_ & _ & ?)); eauto.
  - assert (e = NotAnOperation) as ->.
    { revert Hst. unfold CollectVarMemorySize.
      destruct (for_each collect_black _ ∅) as [bl|e'] eqn:Hbl; simpl; [done|].
      intros [= ->]. by apply collect_black_throw in Hbl as [-> _]. }
    split_and!; split; try done; try (by intros (_ & ?)); eauto.
    + by intros [? ?].
    + intros [?|[_ [st ?]]]; done.
Qed.

Lemma collect_size_frame F bl nodes st0 v :
  (∀ node vd, node ∈ nodes → Name node = v → dense_var node = Some vd →
              Persistable vd = true ∨ v ∈ bl) →
  foldl (λ tbl node, collect_size F bl node tbl) st0 nodes !! v = st0 !! v.
Proof.
  revert st0. induction nodes as [|n nodes IH]; intros st0 Hno; simpl; [done|].
  rewrite IH by (intros node vd Hin; apply Hno; by right).
  unfold collect_size. destruct (dense_var n) as [vd|] eqn:Hd; [|done].
  case_bool_decide as Hbl; [done|].
  destruct (Persistable vd) eqn:Hp; [done|].
  destruct (decide (Name n = v)) as [Hname|Hname].
  - destruct (Hno n vd) as [?|?]; [by left|done|done|congruence|].
    subst v. done.
  - by rewrite lookup_insert_ne.
Qed.

(** X19.  [CollectVarMemorySize] leaves alone every entry of the table it
    is given whose name belongs to no dense-tensor variable node that is
    not persistent. *)
Theorem size_table_keeps_other_entries F g st0 st v :
  CollectVarMemorySize F g st0 = Ok st →
  (∀ node vd, node ∈ Nodes g → Name node = v → dense_var node = Some vd →
              Persistable vd = true) →
  st !! v = st0 !! v.
Proof.
  unfold CollectVarMemorySize.
  destruct (for_each collect_black (Nodes g) ∅) as [bl|] eqn:Hbl; simpl; [|done].
  intros [= <-] Hno. apply collect_size_frame.
  intros node vd Hin Hname Hd. left. by eapply Hno.
Qed.

(** ** The further properties at concrete inputs *)

Lemma largest_candidate_is_representative_witness :
  (MakeSimpleReusePlan libA lc9 st9 ∅ ∅).1 !! "A" = Some "A".
Proof.
  apply (largest_candidate_is_representative libA lc9 st9 "A" 100).
  - exists (0, 2). reflexivity.
  - reflexivity.
  - intros v sv Hne _ Hsv. unfold st9 in Hsv.
    rewrite !lookup_insert, lookup_empty in Hsv.
    repeat case_decide; simplify_eq; lia.
Defined.

Lemma MakeSimpleReusePlan_frame_witness :
  (MakeSimpleReusePlan libA lc9 st9 (<["Q" := "Q"]> ∅) (<["Q" := 7]> ∅)).1 !! "Q" =
    (<["Q" := "Q"]> ∅ : gmap string string) !! "Q" ∧
  (MakeSimpleReusePlan libA lc9 st9 (<["Q" := "Q"]> ∅) (<["Q" := 7]> ∅)).2 !! "Q" =
    (<["Q" := 7]> ∅ : gmap string Z) !! "Q".
Proof.
  apply (MakeSimpleReusePlan_frame libA lc9 st9 (<["Q" := "Q"]> ∅) (<["Q" := 7]> ∅) "Q").
  left. reflexivity.
Defined.

Lemma later_cluster_conflicts_witness :
  ∃ m lm lu, m ≠ "C" ∧
    (MakeSimpleReusePlan libA lc9 st9 ∅ ∅).1 !! m = Some "A" ∧
    lc9 !! m = Some lm ∧ lc9 !! "C" = Some lu ∧ overlap lm lu = true.
Proof.
  apply (later_cluster_conflicts libA lc9 st9 "C" "C" "A" 80 100).
  - vm_compute. discriminate.
  - vm_compute. reflexivity.
  - vm_compute. reflexivity.
  - reflexivity.
  - reflexivity.
  - lia.
Defined.

Lemma disjoint_candidates_share_one_cluster_witness :
  (MakeSimpleReusePlan libA lc2 st2 ∅ ∅).1 !! "A" = Some "A" ∧
  (MakeSimpleReusePlan libA lc2 st2 ∅ ∅).1 !! "B" = Some "A" ∧
  ("A" : string) = "A".
Proof.
  split_and!; [vm_compute; reflexivity..|].
  apply (disjoint_candidates_share_one_cluster libA lc2 st2 "A" "B" "A" "A").
  - vm_compute. discriminate.
  - intros a b la lb Hne Ha Hb _ _. unfold lc2 in Ha, Hb.
    rewrite !lookup_insert, lookup_empty in Ha, Hb.
    repeat case_decide; simplify_eq; reflexivity.
  - vm_compute. reflexivity.
  - vm_compute. reflexivity.
Defined.

Lemma traversal_graph1 :
  TopologyVariantSort fwA graph1 0 =
  [op_feed; op_fc; op_relu; op_tanh; op_scale; op_fetch].
Proof. reflexivity. Defined.

Lemma references_fc_Y : references op_fc "Y".
Proof.
  split_and!; [reflexivity|discriminate|].
  exists var_Y, (mkVarDesc false VarType_Type_LOD_TENSOR [-1; 8] 5).
  split_and!; [|reflexivity..]. simpl. do 2 right. left.
Defined.

Lemma references_relu_Y : references op_relu "Y".
Proof.
  split_and!; [reflexivity|discriminate|].
  exists var_Y, (mkVarDesc false VarType_Type_LOD_TENSOR [-1; 8] 5).
  split_and!; [|reflexivity..]. simpl. left.
Defined.

Lemma references_relu_Z : references op_relu "Z".
Proof.
  split_and!; [reflexivity|discriminate|].
  exists var_Z, (mkVarDesc false VarType_Type_LOD_TENSOR [-1; 4] 5).
  split_and!; [|reflexivity..]. simpl. right. left.
Defined.

Lemma referenced_at_1_Y : referenced_at (TopologyVariantSort fwA graph1 0) 1 "Y".
Proof.
  exists [op_feed], op_fc, [op_relu; op_tanh; op_scale; op_fetch].
  split_and!; [reflexivity|exact references_fc_Y|reflexivity].
Defined.

Lemma referenced_at_2_Y : referenced_at (TopologyVariantSort fwA graph1 0) 2 "Y".
Proof.
  exists [op_feed; op_fc], op_relu, [op_tanh; op_scale; op_fetch].
  split_and!; [reflexivity|exact references_relu_Y|reflexivity].
Defined.

Lemma referenced_at_2_Z : referenced_at (TopologyVariantSort fwA graph1 0) 2 "Z".
Proof.
  exists [op_feed; op_fc], op_relu, [op_tanh; op_scale; op_fetch].
  split_and!; [reflexivity|exact references_relu_Z|reflexivity].
Defined.

Lemma lifecycle_intervals_ordered_witness :
  0 ≤ 1 ≤ 2 ∧ 1 ≤ op_steps (TopologyVariantSort fwA graph1 0).
Proof.
  apply (lifecycle_intervals_ordered fwA graph1 0 lifecycles1 "Y" 1 2).
  - exact CollectLifeCycle_graph1.
  - reflexivity.
Defined.

Lemma lifecycle_covers_references_witness :
  ∃ a b, lifecycles1 !! "Y" = Some (a, b) ∧ a ≤ 2 ≤ b.
Proof.
  apply (lifecycle_covers_references fwA graph1 0 lifecycles1 2 "Y").
  - exact CollectLifeCycle_graph1.
  - exact referenced_at_2_Y.
Defined.

Lemma lifecycle_keys_witness :
  is_Some (lifecycles1 !! "W") ↔
  ∃ op, op ∈ TopologyVariantSort fwA graph1 0 ∧ sights op "W".
Proof.
  apply (lifecycle_keys fwA graph1 0 lifecycles1 "W").
  exact CollectLifeCycle_graph1.
Defined.

Lemma feed_output_interval_witness : lifecycles1 !! "X" = Some (0, INT_MAX).
Proof.
  apply (feed_output_interval fwA graph1 0 lifecycles1 [] op_feed
           [op_fc; op_relu; op_tanh; op_scale; op_fetch] "X").
  - vm_compute. discriminate.
  - exact CollectLifeCycle_graph1.
  - reflexivity.
  - split_and!; [reflexivity..|]. exists var_X. split; [by left|reflexivity].
  - intros op' Hop'. by apply elem_of_nil in Hop'.
Defined.

Lemma live_variables_never_share_witness : ("Y" : string) ≠ "Z".
Proof.
  apply (live_variables_never_share libA fwA argument1 ∅
           (<[(7, "memory_optimize_pass") :=
                Node2ClusterInfo (<["X" := "X"]> (<["Y" := "Y"]> (<["Z" := "Z"]>
                                    (<["V" := "Y"]> ∅))))]> ∅)
           (<["X" := "X"]> (<["Y" := "Y"]> (<["Z" := "Z"]> (<["V" := "Y"]> ∅))))
           "Y" "Z" 1 2 2 "Y" "Z").
  - vm_compute. reflexivity.
  - reflexivity.
  - vm_compute. reflexivity.
  - exact referenced_at_1_Y.
  - exact referenced_at_2_Y.
  - exact referenced_at_2_Z.
  - lia.
  - discriminate.
  - vm_compute. reflexivity.
  - vm_compute. reflexivity.
Defined.

Lemma blacklist_is_by_name_witness : space_table1 !! "U" = None.
Proof.
  apply (blacklist_is_by_name fwA graph1 space_table1 var_U (op_ref "fetch")).
  - exact CollectVarMemorySize_graph1.
  - unfold graph1. simpl. do 10 right. left.
  - eexists. reflexivity.
  - simpl. right. left.
  - unfold invalid_op. do 10 right. left.
Defined.

Lemma size_table_provenance_witness :
  (∃ node vd, node ∈ Nodes graph1 ∧ Name node = "Y" ∧ IsOp node = false ∧
              Var node = Some vd ∧ GetType vd = VarType_Type_LOD_TENSOR ∧
              Persistable vd = false ∧ 32 = var_size fwA vd) ∧
  (∀ n' op, n' ∈ Nodes graph1 → Name n' = "Y" → is_Some (dense_var n') →
            op ∈ inputs n' ++ outputs n' → Name op ∉ invalid_op).
Proof.
  apply (size_table_provenance fwA graph1 space_table1 "Y" 32).
  - exact CollectVarMemorySize_graph1.
  - reflexivity.
Defined.

Lemma size_table_within_range_witness :
  space_table1 !! "Y" = Some (product (placeholder <$> [-1; 8]) * 4).
Proof.
  apply (size_table_within_range fwA graph1 space_table1 var_Y
           (mkVarDesc false VarType_Type_LOD_TENSOR [-1; 8] 5)).
  - exact graph1_names.
  - exact CollectVarMemorySize_graph1.
  - unfold graph1. simpl. do 4 right. left.
  - reflexivity.
  - reflexivity.
  - intros n' op Hn' Hname Hop. unfold graph1 in Hn'. simpl in Hn'.
    repeat (apply elem_of_cons in Hn' as [->|Hn']); try discriminate Hname;
      [|by apply elem_of_nil in Hn'].
    simpl in Hop. apply elem_of_cons in Hop as [->|Hop];
      [|apply list_elem_of_singleton in Hop as ->];
      apply (bool_decide_unpack _); vm_compute; exact I.
  - vm_compute. split; [discriminate|reflexivity].
  - vm_compute. split; [discriminate|reflexivity].
Defined.

Lemma lifecycles_extend_incoming_witness :
  ∃ b', <["Y" := (0, 9)]> lifecycles1 !! "Y" = Some (0, b') ∧ 9 ≤ b'.
Proof.
  apply (lifecycles_extend_incoming fwA graph1 0 (<["Y" := (0, 9)]> ∅)
           (<["Y" := (0, 9)]> lifecycles1) "Y" 0 9).
  - vm_compute. reflexivity.
  - reflexivity.
Defined.

Lemma size_table_keeps_other_entries_witness :
  space_table1 !! "W" = (∅ : gmap string Z) !! "W".
Proof.
  apply (size_table_keeps_other_entries fwA graph1 ∅ space_table1 "W").
  - exact CollectVarMemorySize_graph1.
  - intros node vd Hin Hname Hd. unfold graph1 in Hin. simpl in Hin.
    repeat (apply elem_of_cons in Hin as [->|Hin]); try discriminate Hname;
      [|by apply elem_of_nil in Hin].
    injection Hd as <-. reflexivity.
Defined.
